(** * The shared-memory range reducer [chunk_sum] of [mp_tasks.py]

    A shallow embedding of

<<
    def chunk_sum(shm_name, shape, dtype_str, start, end):
        dtype = np.dtype(dtype_str)
        shm = shared_memory.SharedMemory(name=shm_name)
        try:
            arr = np.ndarray(shape, dtype=dtype, buffer=shm.buf)
            return float(np.sum(arr[start:end]))
        finally:
            shm.close()
>>

    together with the fragment of NumPy and of [multiprocessing.shared_memory]
    the function goes through:

    - IEEE 754 numbers are [spec_float] values of the Standard Library
      ([SFadd] is addition rounded to nearest, ties to even); binary64 is
      [prec = 53], [emax = 1024], binary32 is [prec = 24], [emax = 128];
    - the element formats are the four named by the specification (float32,
      float64, int32, int64), stored little-endian (native byte order of
      x86-64 and AArch64), on a platform whose default integer is 64 bits;
    - [np.sum] follows NumPy's reduction loops: pairwise summation for
      floating-point items, seeded with [-0.0] (NumPy 1.25 and later; an
      empty reduction gives [0.0]), a wrapping loop for integers;
    - the descriptor parser [np.dtype] is a parameter of the development:
      all that matters is whether a string is understood and which of the
      four formats it names;
    - the shared-memory name space is a finite map from names to byte
      strings; the handles a process holds are a finite map from descriptors
      to names; every attach and close is recorded in a log;
    - Python exceptions are an error result threaded through a state monad,
      and [try ... finally] is a combinator of that monad. *)

From Stdlib Require Import ZArith List String Bool Lia.
From Stdlib Require Import Strings.Byte.
From Stdlib Require Import Floats.SpecFloat.
From stdpp Require Import gmap strings list fin_maps.

Local Open Scope Z_scope.

(* ===================================================================== *)
(** * IEEE 754 interchange formats *)
(* ===================================================================== *)

Module IEEE.

(** A binary interchange format: [prec] bits of significand (hidden bit
    included) and infinities at exponent [emax]. *)
Record format := Format { prec : Z; emax : Z }.

Definition binary32 : format := Format 24 128.
Definition binary64 : format := Format 53 1024.

(** Widths of the exponent field and of the trailing significand, in bits;
    the sign is the bit above them. *)
Definition ebits (f : format) : Z := Z.log2 (emax f) + 1.
Definition mbits (f : format) : Z := prec f - 1.

(** [of_bits f n] reads the encoding [n] (an unsigned integer of
    [mbits f + ebits f + 1] bits): sign, biased exponent, trailing
    significand. *)
Definition of_bits (f : format) (n : Z) : spec_float :=
  let m := Z.land n (Z.ones (mbits f)) in
  let e := Z.land (Z.shiftr n (mbits f)) (Z.ones (ebits f)) in
  let s := Z.testbit n (mbits f + ebits f) in
  if e =? 0 then
    match m with
    | Zpos p => S754_finite s p (emin (prec f) (emax f))
    | _ => S754_zero s
    end
  else if e =? Z.ones (ebits f) then
    (if m =? 0 then S754_infinity s else S754_nan)
  else
    match m + 2 ^ mbits f with
    | Zpos p => S754_finite s p (e + emin (prec f) (emax f) - 1)
    | _ => S754_nan
    end.

Definition add (f : format) : spec_float -> spec_float -> spec_float :=
  SFadd (prec f) (emax f).

(** The nearest number of format [f] to the integer [z] (ties to even):
    the conversion C applies to [(double) z]. *)
Definition of_Z (f : format) (z : Z) : spec_float :=
  binary_normalize (prec f) (emax f) z 0 false.

(** Re-encoding of a number of a narrower format in format [f]; exact
    whenever [f] has at least the precision and range of the source. *)
Definition widen (f : format) (x : spec_float) : spec_float :=
  match x with
  | S754_finite s m e =>
      binary_normalize (prec f) (emax f) (cond_Zopp s (Zpos m)) e s
  | _ => x
  end.

End IEEE.

Abbreviation f64_add := (IEEE.add IEEE.binary64).
Abbreviation pos_zero := (S754_zero false).
Abbreviation neg_zero := (S754_zero true).

(* ===================================================================== *)
(** * Python results *)
(* ===================================================================== *)

(** The exceptions [chunk_sum] can raise, named by class and origin. *)
Inductive exn : Type :=
| TypeError_data_type_not_understood  (* np.dtype(dtype_str) *)
| FileNotFoundError                   (* SharedMemory(name=...): no such segment *)
| TypeError_buffer_too_small          (* np.ndarray: buffer is too small for requested array *)
| ValueError_array_too_big            (* np.ndarray: request beyond the index range *)
| ValueError_negative_dimensions      (* np.ndarray: negative dimensions are not allowed *)
| IndexError_too_many_indices.        (* arr[start:end] on a 0-dimensional array *)

Inductive result (A : Type) : Type :=
| Ok (a : A)
| Err (e : exn).
Arguments Ok {A} a.
Arguments Err {A} e.


(* ===================================================================== *)
(** * The NumPy fragment *)
(* ===================================================================== *)

Module np.

(** Element formats. *)
Inductive dtype : Type := float32 | float64 | int32 | int64.

Definition itemsize (dt : dtype) : Z :=
  match dt with
  | float32 | int32 => 4
  | float64 | int64 => 8
  end.

(** [math.prod(shape)]; the empty shape describes one element. *)
Definition prod (shape : list Z) : Z := fold_right Z.mul 1 shape.

(** An array is a typed, shaped window on a buffer it does not own:
    [nd_base] is the whole buffer, [nd_offset] the byte at which the window
    starts.  All arrays here are C-contiguous. *)
Record array : Type := Array {
  nd_shape : list Z;
  nd_dtype : dtype;
  nd_base : list byte;
  nd_offset : Z
}.

Definition size (a : array) : Z := prod (nd_shape a).

(** [np.ndarray(shape, dtype=dt, buffer=buffer)].  The constructor compares
    the requested byte count with the length of the buffer before it looks
    at the sign of the dimensions; the one-dimensional shape [(-1,)] asks
    for as many items as the buffer holds.  Requests beyond the range of the
    64-bit index type are refused as well. *)
Definition ndarray (shape : list Z) (dt : dtype) (buffer : list byte)
  : result array :=
  let len := Z.of_nat (length buffer) in
  match shape with
  | [Zneg xH] => Ok (Array [len / itemsize dt] dt buffer 0)
  | _ =>
      let nbytes := itemsize dt * prod shape in
      if len <? nbytes then
        Err (if nbytes <? 2 ^ 63 then TypeError_buffer_too_small
             else ValueError_array_too_big)
      else if existsb (fun d => d <? 0) shape then
        Err ValueError_negative_dimensions
      else Ok (Array shape dt buffer 0)
  end.

(** Python's adjustment of one slice bound against an extent [n] (step 1):
    a negative bound counts from the end, and the result is clamped to
    [0 .. n]. *)
Definition adjust (n i : Z) : Z :=
  if i <? 0 then Z.max 0 (i + n) else Z.min i n.

(** [a[start:stop]]: a view on the same buffer, sliced along the first
    axis.  Slicing never fails on an array that has a first axis. *)
Definition getslice (a : array) (start stop : Z) : result array :=
  match nd_shape a with
  | [] => Err IndexError_too_many_indices
  | n :: inner =>
      let lo := adjust n start in
      let hi := adjust n stop in
      Ok (Array (Z.max 0 (hi - lo) :: inner) (nd_dtype a) (nd_base a)
                (nd_offset a + lo * prod inner * itemsize (nd_dtype a)))
  end.

(** Little-endian unsigned reading of a byte string. *)
Definition le_unsigned (bs : list byte) : Z :=
  fold_right (fun b acc => Z.of_N (Byte.to_N b) + 256 * acc) 0 bs.

(** Two's complement reading of the low [w] bits of [z]. *)
Definition to_signed (w : Z) (z : Z) : Z :=
  let r := z mod 2 ^ w in
  if r <? 2 ^ (w - 1) then r else r - 2 ^ w.

(** The raw bits of item [i] of the window (row-major order). *)
Definition item (a : array) (i : nat) : Z :=
  let w := Z.to_nat (itemsize (nd_dtype a)) in
  le_unsigned (take w (drop (Z.to_nat (nd_offset a) + i * w)%nat (nd_base a))).

Definition items (a : array) : list Z :=
  map (item a) (seq 0 (Z.to_nat (size a))).

(** ** Summation loops *)

Section Pairwise.
Variable fmt : IEEE.format.

Local Notation "x +. y" := (IEEE.add fmt x y) (at level 50, left associativity).

(** Fewer than 8 items: a plain loop seeded with [-0.0]. *)
Definition sum_small (l : list spec_float) : spec_float :=
  fold_left (IEEE.add fmt) l neg_zero.

(** 8 to 128 items: eight running sums over the complete groups of eight,
    combined as a balanced tree, then the remaining items one by one. *)
Fixpoint unrolled (r0 r1 r2 r3 r4 r5 r6 r7 : spec_float)
    (l : list spec_float) : spec_float :=
  match l with
  | a0 :: a1 :: a2 :: a3 :: a4 :: a5 :: a6 :: a7 :: tl =>
      unrolled (r0 +. a0) (r1 +. a1) (r2 +. a2) (r3 +. a3)
               (r4 +. a4) (r5 +. a5) (r6 +. a6) (r7 +. a7) tl
  | rest =>
      fold_left (IEEE.add fmt) rest
        (((r0 +. r1) +. (r2 +. r3)) +. ((r4 +. r5) +. (r6 +. r7)))
  end.

Definition sum_block (l : list spec_float) : spec_float :=
  match l with
  | a0 :: a1 :: a2 :: a3 :: a4 :: a5 :: a6 :: a7 :: tl =>
      unrolled a0 a1 a2 a3 a4 a5 a6 a7 tl
  | _ => sum_small l
  end.

(** More than 128 items: split near the middle, at a multiple of 8, and
    add the sums of the halves.  [fuel] bounds the depth of the
    recursion; the length of the list is always enough
    (see [pairwise_sum_fuel]). *)
Fixpoint pairwise_sum (fuel : nat) (l : list spec_float) : spec_float :=
  let n := length l in
  if (n <? 8)%nat then sum_small l
  else if (n <=? 128)%nat then sum_block l
  else
    match fuel with
    | O => sum_block l
    | S fuel' =>
        let n2 := (n / 2 - (n / 2) mod 8)%nat in
        pairwise_sum fuel' (take n2 l) +. pairwise_sum fuel' (drop n2 l)
    end.

(** [np.add.reduce] on a floating-point array: [0.0] for an empty
    reduction, otherwise the pairwise sum accumulated on the identity
    [-0.0]. *)
Definition add_reduce_float (l : list spec_float) : spec_float :=
  match l with
  | [] => pos_zero
  | _ => neg_zero +. pairwise_sum (length l) l
  end.
End Pairwise.

(** [np.add.reduce] on 64-bit integers: a loop that wraps around. *)
Definition add_reduce_int (l : list Z) : Z :=
  fold_left (fun acc x => to_signed 64 (acc + x)) l 0.

(** Array scalars, the values [np.sum] returns. *)
Inductive scalar : Type :=
| np_float32 (x : spec_float)
| np_float64 (x : spec_float)
| np_int64 (z : Z).

(** [np.sum(a)] over all items.  Floating-point arrays are summed in their
    own format; integer arrays narrower than the platform integer are summed
    in [int64]. *)
Definition sum (a : array) : scalar :=
  match nd_dtype a with
  | float32 =>
      np_float32 (add_reduce_float IEEE.binary32
                    (map (IEEE.of_bits IEEE.binary32) (items a)))
  | float64 =>
      np_float64 (add_reduce_float IEEE.binary64
                    (map (IEEE.of_bits IEEE.binary64) (items a)))
  | int32 => np_int64 (add_reduce_int (map (to_signed 32) (items a)))
  | int64 => np_int64 (add_reduce_int (map (to_signed 64) (items a)))
  end.

End np.

(** [float(x)] on an array scalar: a Python float is a binary64 number. *)
Definition float (x : np.scalar) : spec_float :=
  match x with
  | np.np_float64 v => v
  | np.np_float32 v => IEEE.widen IEEE.binary64 v
  | np.np_int64 z => IEEE.of_Z IEEE.binary64 z
  end.

(* ===================================================================== *)
(** * Named shared memory *)
(* ===================================================================== *)

Module shm.

(** What a call does to the handles of the process, in order. *)
Inductive event : Type :=
| Attach (name : string) (fd : nat)
| Close (fd : nat).

(** The state [chunk_sum] runs in: the named segments that exist (owned by
    whoever created them), the handles this process holds (descriptor to
    segment name), and the log of attaches and closes. *)
Record world : Type := World {
  segments : gmap string (list byte);
  handles : gmap nat string;
  log : list event
}.

(** A [SharedMemory] object of the process. *)
Record handle : Type := Handle { name : string; fd : nat }.

End shm.

(** Computations that read and update the world and may raise. *)
Definition M (A : Type) : Type := shm.world -> result A * shm.world.

#[export] Instance M_ret : MRet M := fun A a w => (Ok a, w).

#[export] Instance M_bind : MBind M := fun A B k m w =>
  match m w with
  | (Ok a, w') => k a w'
  | (Err e, w') => (Err e, w')
  end.

Definition raise {A} (e : exn) : M A := fun w => (Err e, w).

(** A library call that touches no shared state. *)
Definition pure_call {A} (r : result A) : M A := fun w => (r, w).

(** [try: body finally: cleanup].  The cleanup runs whatever the outcome of
    the body; the outcome of the body (value or exception) is then passed
    on, unless the cleanup itself raises. *)
Definition try_finally {A} (body : M A) (cleanup : M unit) : M A := fun w =>
  let '(r, w1) := body w in
  match cleanup w1 with
  | (Ok _, w2) => (r, w2)
  | (Err e, w2) => (Err e, w2)
  end.

Module shared_memory.
Import shm.

(** [SharedMemory(name=n)]: attach to an existing segment.  The new handle
    takes a descriptor that is not in use. *)
Definition SharedMemory (n : string) : M handle := fun w =>
  match segments w !! n with
  | None => (Err FileNotFoundError, w)
  | Some _ =>
      let d := fresh (dom (handles w)) in
      (Ok (Handle n d),
       World (segments w) (<[d := n]> (handles w)) (log w ++ [Attach n d]))
  end.

(** [h.buf]: the bytes of the segment the handle is mapped on. *)
Definition buf (h : handle) : M (list byte) := fun w =>
  (Ok (default [] (segments w !! name h)), w).

(** [h.close()]: give the handle back.  The segment itself stays. *)
Definition close (h : handle) : M unit := fun w =>
  (Ok tt, World (segments w) (delete (fd h) (handles w)) (log w ++ [Close (fd h)])).

End shared_memory.

(* ===================================================================== *)
(** * The reducer *)
(* ===================================================================== *)

Section Reducer.

(** [np.dtype(s)] on a descriptor string: the format it names, or [None]
    when NumPy answers [TypeError: data type not understood]. *)
Variable np_dtype : string -> option np.dtype.

Definition dtype_of (dtype_str : string) : M np.dtype :=
  match np_dtype dtype_str with
  | Some dt => mret dt
  | None => raise TypeError_data_type_not_understood
  end.

Definition chunk_sum (shm_name : string) (shape : list Z)
    (dtype_str : string) (start end_ : Z) : M spec_float :=
  dtype ← dtype_of dtype_str;
  shm ← shared_memory.SharedMemory shm_name;
  try_finally
    (buffer ← shared_memory.buf shm;
     arr ← pure_call (np.ndarray shape dtype buffer);
     view ← pure_call (np.getslice arr start end_);
     mret (float (np.sum view)))
    (shared_memory.close shm).

End Reducer.

(* ===================================================================== *)
(** * The CPU-bound loop *)
(* ===================================================================== *)

(** <<
    def cpu_heavy(n = 10_000_000) -> int:
        s = 0
        for i in range(n):
            s += (i * i) % 97
        return s
>>
    Python integers are unbounded, so [s] and [i] are in [Z]. *)

(** [range(n)]: the integers [0 .. n - 1], none when [n <= 0]. *)
Definition range (n : Z) : list Z := map Z.of_nat (seq 0 (Z.to_nat n)).

Definition cpu_heavy (n : Z) : Z :=
  fold_left (fun s i => s + (i * i) mod 97) (range n) 0.

(** The default value of the argument. *)
Definition cpu_heavy_default_n : Z := 10000000.

(** The canonical names and the sized type codes of the four formats. *)
Definition dtype_names (s : string) : option np.dtype :=
  if String.eqb s "float64" || String.eqb s "f8" then Some np.float64
  else if String.eqb s "float32" || String.eqb s "f4" then Some np.float32
  else if String.eqb s "int64" || String.eqb s "i8" then Some np.int64
  else if String.eqb s "int32" || String.eqb s "i4" then Some np.int32
  else None.

(** The array [[1.0, 2.0, 3.0, 4.0]] as 32 bytes of binary64. *)
Definition bytes_1234 : list byte :=
  [x00; x00; x00; x00; x00; x00; xf0; x3f;
   x00; x00; x00; x00; x00; x00; x00; x40;
   x00; x00; x00; x00; x00; x00; x08; x40;
   x00; x00; x00; x00; x00; x00; x10; x40].

Definition world_1234 : shm.world :=
  shm.World {[ "psm_demo"%string := bytes_1234 ]} ∅ [].

(** The pure part of the body of the [try] block, as a function of the
    bytes of the segment. *)
Definition reduce (shape : list Z) (dt : np.dtype) (buffer : list byte)
    (start end_ : Z) : result spec_float :=
  match np.ndarray shape dt buffer with
  | Err e => Err e
  | Ok arr =>
      match np.getslice arr start end_ with
      | Err e => Err e
      | Ok view => Ok (float (np.sum view))
      end
  end.

(** The view [arr[start:end_]] of an array of shape [n :: inner] laid on
    [buffer]. *)
Definition window (n : Z) (inner : list Z) (dt : np.dtype)
    (buffer : list byte) (start end_ : Z) : np.array :=
  np.Array (Z.max 0 (np.adjust n end_ - np.adjust n start) :: inner) dt buffer
           (0 + np.adjust n start * np.prod inner * np.itemsize dt).

(** A shape the specification allows on a buffer: at least one axis,
    positive extents, and no more bytes than the buffer has. *)
Definition fits (shape : list Z) (dt : np.dtype) (buffer : list byte) : Prop :=
  shape <> [] /\ Forall (fun d => 0 < d) shape /\
  np.itemsize dt * np.prod shape <= Z.of_nat (length buffer).

(** ** The sum the specification describes *)

(** Follows the words of the specification (the sum is "computed in double
    precision regardless of the source element type", narrower types being
    "promoted before summation"): the conversion of one stored item to
    binary64. *)
Definition promote (dt : np.dtype) (raw : Z) : spec_float :=
  match dt with
  | np.float64 => IEEE.of_bits IEEE.binary64 raw
  | np.float32 => IEEE.widen IEEE.binary64 (IEEE.of_bits IEEE.binary32 raw)
  | np.int32 => IEEE.of_Z IEEE.binary64 (np.to_signed 32 raw)
  | np.int64 => IEEE.of_Z IEEE.binary64 (np.to_signed 64 raw)
  end.

(** Follows the words of the specification: all items are promoted first and
    the promoted items are summed in binary64. *)
Definition spec_double_sum (a : np.array) : spec_float :=
  np.add_reduce_float IEEE.binary64 (map (promote (np.nd_dtype a)) (np.items a)).

(** ** Integers stored in a segment *)

Definition Zsum (l : list Z) : Z := fold_right Z.add 0 l.

Definition sum_abs (l : list Z) : Z := fold_right (fun z acc => Z.abs z + acc) 0 l.

(** [a] lies within [A] of zero. *)
Definition within (a A : Z) : Prop := Z.abs a <= A.

(** The stored item [raw] of format [dt] is the integer [z]. *)
Definition integral (dt : np.dtype) (raw z : Z) : Prop :=
  match dt with
  | np.int32 => z = np.to_signed 32 raw
  | np.int64 => z = np.to_signed 64 raw
  | np.float32 => IEEE.of_bits IEEE.binary32 raw = IEEE.of_Z IEEE.binary32 z
  | np.float64 => IEEE.of_bits IEEE.binary64 raw = IEEE.of_Z IEEE.binary64 z
  end.

(** The format the items of an array are summed in; integers end up in
    binary64 when the total is converted. *)
Definition sum_format (dt : np.dtype) : IEEE.format :=
  match dt with
  | np.float32 => IEEE.binary32
  | _ => IEEE.binary64
  end.

(** ** Numbers of a format, by value *)

(** Number of bits of a positive integer. *)
Definition dig (p : positive) : Z := Zpos (digits2_pos p).

(** [m * 2 ^ e] and [M * 2 ^ E] are the same number. *)
Definition same_value (m : positive) (e : Z) (M : positive) (E : Z) : Prop :=
  (E <= e /\ Zpos M = Zpos m * 2 ^ (e - E)) \/
  (e < E /\ Zpos m = Zpos M * 2 ^ (E - e)).

(** [m * 2 ^ e] is the integer [c]. *)
Definition denotes (m : positive) (e : Z) (c : positive) : Prop :=
  (e <= 0 /\ Zpos m = Zpos c * 2 ^ (- e)) \/
  (0 <= e /\ Zpos c = Zpos m * 2 ^ e).

(** ** More segments *)

(** [[16777216.0, 1.0]] as 8 bytes of binary32. *)
Definition bytes_f32 : list byte :=
  [x00; x00; x80; x4b;
   x00; x00; x80; x3f].

(** [[9007199254740992.0, 1.0, 1.0]] as 24 bytes of binary64. *)
Definition bytes_2p53 : list byte :=
  [x00; x00; x00; x00; x00; x00; x40; x43;
   x00; x00; x00; x00; x00; x00; xf0; x3f;
   x00; x00; x00; x00; x00; x00; xf0; x3f].

Definition world_ties : shm.world :=
  shm.World (<[ "psm_f32"%string := bytes_f32 ]>
               {[ "psm_2p53"%string := bytes_2p53 ]}) ∅ [].

(** Rows 1 and 2 of [bytes_1234] between a NaN and a zero: the same bytes
    as [bytes_1234] on the range [1 .. 3), other bytes elsewhere. *)
Definition bytes_x23x : list byte :=
  [xff; xff; xff; xff; xff; xff; xff; xff;
   x00; x00; x00; x00; x00; x00; x00; x40;
   x00; x00; x00; x00; x00; x00; x08; x40;
   x00; x00; x00; x00; x00; x00; x00; x00].

Definition world_x23x : shm.world :=
  shm.World {[ "psm_other"%string := bytes_x23x ]} {[ 0%nat := "psm_other"%string ]} [].

(** Four int32 items, [[2147483647, 2147483647, -2147483648, 1]]. *)
Definition bytes_i32 : list byte :=
  [xff; xff; xff; x7f;
   xff; xff; xff; x7f;
   x00; x00; x00; x80;
   x01; x00; x00; x00].

Definition world_i32 : shm.world :=
  shm.World {[ "psm_i32"%string := bytes_i32 ]} ∅ [].

(* ===================================================================== *)
(** * How a call unfolds *)
(* ===================================================================== *)

Section Unfolding.
Variable np_dtype : string -> option np.dtype.
Implicit Types (w : shm.world) (n s : string) (shape : list Z).

Lemma chunk_sum_unknown_dtype w n shape s start end_ :
  np_dtype s = None ->
  chunk_sum np_dtype n shape s start end_ w
  = (Err TypeError_data_type_not_understood, w).
Proof.
  intros H. unfold chunk_sum, dtype_of, mbind, M_bind, raise. now rewrite H.
Qed.

Lemma chunk_sum_no_segment w n shape s dt start end_ :
  np_dtype s = Some dt ->
  shm.segments w !! n = None ->
  chunk_sum np_dtype n shape s start end_ w = (Err FileNotFoundError, w).
Proof.
  intros Hd Hn.
  unfold chunk_sum, dtype_of, mbind, M_bind, mret, M_ret.
  rewrite Hd. unfold shared_memory.SharedMemory. now rewrite Hn.
Qed.

Lemma fresh_handle_free w : shm.handles w !! fresh (dom (shm.handles w)) = None.
Proof. apply not_elem_of_dom, is_fresh. Qed.

Lemma chunk_sum_attached w n shape s dt buffer start end_ :
  np_dtype s = Some dt ->
  shm.segments w !! n = Some buffer ->
  chunk_sum np_dtype n shape s start end_ w
  = (reduce shape dt buffer start end_,
     let d := fresh (dom (shm.handles w)) in
     shm.World (shm.segments w) (shm.handles w)
               (shm.log w ++ [shm.Attach n d; shm.Close d])).
Proof.
  intros Hd Hn.
  unfold chunk_sum, dtype_of, mbind, M_bind, mret, M_ret.
  rewrite Hd. unfold shared_memory.SharedMemory. rewrite Hn.
  unfold try_finally, shared_memory.buf, shared_memory.close, pure_call, reduce.
  cbn [shm.segments shm.handles shm.log shm.name shm.fd]. rewrite Hn.
  cbn [default from_option id].
  assert (Hrel : forall (r : result spec_float) l,
    (r, shm.World (shm.segments w)
          (delete (fresh (dom (shm.handles w)))
             (<[fresh (dom (shm.handles w)) := n]> (shm.handles w)))
          ((shm.log w ++ [l]) ++ [shm.Close (fresh (dom (shm.handles w)))]))
    = (r, shm.World (shm.segments w) (shm.handles w)
            (shm.log w ++ [l; shm.Close (fresh (dom (shm.handles w)))]))).
  { intros r l.
    rewrite delete_insert_eq, (delete_id _ _ (fresh_handle_free w)).
    now rewrite <- app_assoc. }
  destruct (np.ndarray shape dt buffer) as [arr|e]; [|apply Hrel].
  destruct (np.getslice arr start end_) as [view|e]; apply Hrel.
Qed.
End Unfolding.

(* ===================================================================== *)
(** * The pure part *)
(* ===================================================================== *)

Lemma itemsize_pos dt : 0 < np.itemsize dt.
Proof. destruct dt; reflexivity. Qed.

Lemma prod_pos shape : Forall (fun d => 0 < d) shape -> 0 < np.prod shape.
Proof.
  induction 1 as [|d ds Hd _ IH]; cbn; [reflexivity|]. now apply Z.mul_pos_pos.
Qed.

Lemma no_negative_dimension shape :
  Forall (fun d => 0 < d) shape -> existsb (fun d => d <? 0) shape = false.
Proof.
  induction 1 as [|d ds Hd _ IH]; cbn; [reflexivity|].
  rewrite IH, orb_false_r. now apply Z.ltb_ge, Z.lt_le_incl.
Qed.

(** On a shape that fits, the array is built and sliced without error. *)
Lemma reduce_fits n inner dt buffer start end_ :
  fits (n :: inner) dt buffer ->
  reduce (n :: inner) dt buffer start end_
  = Ok (float (np.sum (window n inner dt buffer start end_))).
Proof.
  intros (_ & Hpos & Hlen). unfold reduce, np.ndarray.
  assert (Hn : 0 < n) by now inversion Hpos.
  apply Z.leb_le in Hlen. rewrite Z.leb_antisym in Hlen.
  apply negb_true_iff in Hlen.
  rewrite (no_negative_dimension _ Hpos), Hlen.
  destruct n as [|p|p]; try lia.
  destruct inner; reflexivity.
Qed.


(** An empty selection sums to [0.0] in every element format. *)
Lemma sum_of_nothing a : np.size a <= 0 -> float (np.sum a) = pos_zero.
Proof.
  intros Hsz. unfold np.sum, np.items.
  replace (Z.to_nat (np.size a)) with O by lia. cbn [seq map].
  destruct (np.nd_dtype a); reflexivity.
Qed.

Lemma empty_window n inner dt buffer start end_ :
  np.adjust n end_ <= np.adjust n start ->
  float (np.sum (window n inner dt buffer start end_)) = pos_zero.
Proof.
  intros H. apply sum_of_nothing. unfold np.size, window. cbn.
  rewrite Z.max_l by lia. reflexivity.
Qed.

Lemma adjust_in_range n i : 0 <= i <= n -> np.adjust n i = i.
Proof.
  intros H. unfold np.adjust.
  destruct (Z.ltb_spec i 0); lia.
Qed.

Lemma adjust_bounds n i : 0 <= n -> 0 <= np.adjust n i <= n.
Proof.
  intros H. unfold np.adjust.
  destruct (Z.ltb_spec i 0); lia.
Qed.

(** Whatever the bounds, the view of a shape that fits lies inside the
    buffer: no item is read outside the segment. *)
Lemma window_in_bounds d inner dt buffer start end_ :
  fits (d :: inner) dt buffer ->
  let view := window d inner dt buffer start end_ in
  0 <= np.nd_offset view /\
  np.nd_offset view + np.size view * np.itemsize dt
  <= Z.of_nat (length buffer).
Proof.
  intros (_ & Hpos & Hlen) view. subst view.
  assert (Hd : 0 < d) by now inversion Hpos.
  assert (Hinner : 0 < np.prod inner) by (apply prod_pos; now inversion Hpos).
  pose proof (itemsize_pos dt) as Hw.
  pose proof (adjust_bounds d start ltac:(lia)) as Hlo.
  pose proof (adjust_bounds d end_ ltac:(lia)) as Hhi.
  unfold window, np.size. cbn [np.nd_offset np.nd_shape np.prod fold_right] in *.
  fold (np.prod inner) in *.
  set (lo := np.adjust d start) in *. set (hi := np.adjust d end_) in *.
  set (P := np.prod inner) in *. set (isz := np.itemsize dt) in *.
  split; [nia|].
  assert (H1 : lo + Z.max 0 (hi - lo) <= d) by lia.
  replace (0 + lo * P * isz + Z.max 0 (hi - lo) * P * isz)
    with ((lo + Z.max 0 (hi - lo)) * (P * isz)) by ring.
  transitivity (d * (P * isz)); [|lia].
  apply Z.mul_le_mono_nonneg_r; [nia|exact H1].
Qed.

(* ===================================================================== *)
(** * Resource discipline *)
(* ===================================================================== *)





(* ===================================================================== *)
(** * Values and errors *)
(* ===================================================================== *)

(** C2. On a segment that holds [[1.0, 2.0, 3.0, 4.0]] as binary64, with
    shape [(4,)], the range [1 .. 3) sums to [5.0]. *)
Theorem chunk_sum_1234
    (np_dtype : string -> option np.dtype) (w : shm.world) (n : string) :
  np_dtype "float64"%string = Some np.float64 ->
  shm.segments w !! n = Some bytes_1234 ->
  fst (chunk_sum np_dtype n [4] "float64" 1 3 w)
  = Ok (IEEE.of_Z IEEE.binary64 5).
Proof.
  intros Hd Hn.
  rewrite (chunk_sum_attached np_dtype w n [4] _ _ _ 1 3 Hd Hn).
  cbn [fst]. vm_compute. reflexivity.
Qed.

Lemma chunk_sum_1234_witness :
  fst (chunk_sum dtype_names "psm_demo" [4] "float64" 1 3 world_1234)
  = Ok (IEEE.of_Z IEEE.binary64 5).
Proof.
  apply (chunk_sum_1234 dtype_names world_1234 "psm_demo"); reflexivity.
Defined.

(** [5.0] is the number encoded by [0x4014000000000000]. *)
Example five_bits :
  IEEE.of_Z IEEE.binary64 5 = IEEE.of_bits IEEE.binary64 0x4014000000000000.
Proof. reflexivity. Qed.

(** C3, as stated, fails: with [start = 5] and [end = 2] on the four-item
    segment the call raises nothing and returns [0.0]. *)
Lemma chunk_sum_5_2_is_zero :
  fst (chunk_sum dtype_names "psm_demo" [4] "float64" 5 2 world_1234)
  = Ok pos_zero /\
  forall e, fst (chunk_sum dtype_names "psm_demo" [4] "float64" 5 2 world_1234)
            <> Err e.
Proof.
  assert (H : fst (chunk_sum dtype_names "psm_demo" [4] "float64" 5 2 world_1234)
              = Ok pos_zero) by (vm_compute; reflexivity).
  split; [exact H|]. intros e. rewrite H. discriminate.
Qed.

(** C3, amended. The bounds are not checked: they go through Python's
    slice adjustment (a negative bound counts from the end, then both are
    clamped to the extent of the first axis).  On an existing segment with
    a shape that fits, every pair of integers yields a value and never an
    error, and the value is [0.0] whenever the adjusted range is empty, as
    it is for [start = 5], [end = 2]. *)
Theorem chunk_sum_any_bounds
    (np_dtype : string -> option np.dtype) (w : shm.world) (n : string)
    (d : Z) (inner : list Z) (s : string) (dt : np.dtype)
    (buffer : list byte) (start end_ : Z) :
  np_dtype s = Some dt ->
  shm.segments w !! n = Some buffer ->
  fits (d :: inner) dt buffer ->
  fst (chunk_sum np_dtype n (d :: inner) s start end_ w)
  = Ok (float (np.sum (window d inner dt buffer start end_))) /\
  (np.adjust d end_ <= np.adjust d start ->
   fst (chunk_sum np_dtype n (d :: inner) s start end_ w) = Ok pos_zero).
Proof.
  intros Hd Hn Hfit.
  rewrite (chunk_sum_attached np_dtype w n _ _ _ _ start end_ Hd Hn).
  cbn [fst]. rewrite (reduce_fits _ _ _ _ _ _ Hfit).
  split; [reflexivity|]. intros Hempty. now rewrite empty_window.
Qed.

Lemma fits_1234 : fits [4] np.float64 bytes_1234.
Proof.
  split; [discriminate|]. split; [|vm_compute; discriminate].
  constructor; [reflexivity|constructor].
Qed.

Lemma chunk_sum_any_bounds_witness :
  fst (chunk_sum dtype_names "psm_demo" [4] "float64" 5 2 world_1234)
  = Ok (float (np.sum (window 4 [] np.float64 bytes_1234 5 2))) /\
  (np.adjust 4 2 <= np.adjust 4 5 ->
   fst (chunk_sum dtype_names "psm_demo" [4] "float64" 5 2 world_1234)
   = Ok pos_zero).
Proof.
  apply (chunk_sum_any_bounds dtype_names world_1234 "psm_demo" 4 []
           "float64" np.float64 bytes_1234 5 2);
    [reflexivity | reflexivity | exact fits_1234].
Defined.

(** C6. On a valid request with [start = end] the call returns exactly
    [0.0]. *)
Theorem chunk_sum_empty_range
    (np_dtype : string -> option np.dtype) (w : shm.world) (n : string)
    (d : Z) (inner : list Z) (s : string) (dt : np.dtype)
    (buffer : list byte) (start end_ : Z) :
  np_dtype s = Some dt ->
  shm.segments w !! n = Some buffer ->
  fits (d :: inner) dt buffer ->
  0 <= start <= d ->
  start = end_ ->
  fst (chunk_sum np_dtype n (d :: inner) s start end_ w) = Ok pos_zero.
Proof.
  intros Hd Hn Hfit _ <-.
  rewrite (chunk_sum_attached np_dtype w n _ _ _ _ start start Hd Hn).
  cbn [fst]. rewrite (reduce_fits _ _ _ _ _ _ Hfit).
  now rewrite empty_window.
Qed.

Lemma chunk_sum_empty_range_witness :
  fst (chunk_sum dtype_names "psm_demo" [4] "float64" 2 2 world_1234)
  = Ok pos_zero.
Proof.
  apply (chunk_sum_empty_range dtype_names world_1234 "psm_demo" 4 []
           "float64" np.float64 bytes_1234 2 2);
    [reflexivity | reflexivity | exact fits_1234 | lia | reflexivity].
Defined.






(** C9. Two calls in a row with the same arguments give the same outcome,
    and a call leaves every segment as it found it. *)
Theorem chunk_sum_idempotent
    (np_dtype : string -> option np.dtype) (w : shm.world) (n : string)
    (shape : list Z) (s : string) (start end_ : Z) :
  let first := chunk_sum np_dtype n shape s start end_ w in
  let second := chunk_sum np_dtype n shape s start end_ (snd first) in
  fst second = fst first /\
  shm.segments (snd first) = shm.segments w /\
  shm.segments (snd second) = shm.segments w.
Proof.
  destruct (np_dtype s) as [dt|] eqn:Hd.
  - destruct (shm.segments w !! n) as [buffer|] eqn:Hn.
    + cbn zeta.
      rewrite (chunk_sum_attached np_dtype w n _ _ _ _ start end_ Hd Hn).
      cbn [fst snd].
      rewrite (chunk_sum_attached np_dtype _ n _ _ _ buffer start end_ Hd)
        by exact Hn.
      cbn [fst snd shm.segments]. auto.
    + cbn zeta.
      rewrite (chunk_sum_no_segment np_dtype w n _ _ _ start end_ Hd Hn).
      cbn [fst snd].
      rewrite (chunk_sum_no_segment np_dtype w n _ _ _ start end_ Hd Hn).
      auto.
  - cbn zeta.
    rewrite (chunk_sum_unknown_dtype np_dtype w n shape _ start end_ Hd).
    cbn [fst snd].
    rewrite (chunk_sum_unknown_dtype np_dtype w n shape _ start end_ Hd).
    auto.
Qed.

(* ===================================================================== *)
(** * Exact arithmetic on integers *)
(* ===================================================================== *)

(** Rounding does nothing to a number the format can hold.  The lemmas
    below follow [binary_round] and [SFadd] step by step on such numbers;
    they give the cases in which the sums of [np.sum] are exact. *)

Lemma digits2_size p : digits2_pos p = Pos.size p.
Proof. induction p; cbn; congruence. Qed.

Lemma digits2_log2 p : Zpos (digits2_pos p) = Z.log2 (Zpos p) + 1.
Proof.
  destruct p; cbn [digits2_pos Z.log2]; rewrite ?digits2_size; lia.
Qed.

Lemma iter_xO m d : Zpos (Pos.iter xO m d) = Zpos m * 2 ^ Zpos d.
Proof.
  revert m. induction d using Pos.peano_ind; intros m.
  - cbn. lia.
  - rewrite Pos.iter_succ, Pos2Z.inj_succ, Z.pow_succ_r by lia.
    rewrite Pos2Z.inj_xO, IHd. lia.
Qed.

Lemma iter_shr_1 n m :
  SpecFloat.iter_pos shr_1 n (Build_shr_record (Zpos (Pos.iter xO m n)) false false)
  = Build_shr_record (Zpos m) false false.
Proof.
  revert m. induction n as [n IH|n IH|]; intros m; cbn [SpecFloat.iter_pos Pos.iter].
  - cbn [shr_1 orb]. now rewrite !IH.
  - now rewrite !IH.
  - reflexivity.
Qed.

Ltac pow_eq :=
  first [reflexivity | f_equal; first [reflexivity | f_equal; lia]].

Section Exact.
Variable fmt : IEEE.format.
Hypothesis Hprec : 0 < IEEE.prec fmt.
Hypothesis Hemax : IEEE.prec fmt < IEEE.emax fmt.

Local Abbreviation prec := (IEEE.prec fmt).
Local Abbreviation emax := (IEEE.emax fmt).
Local Abbreviation of_int := (IEEE.of_Z fmt).

Lemma dig_shift m M k : 0 <= k -> Zpos M = Zpos m * 2 ^ k -> dig M = dig m + k.
Proof.
  intros Hk H. unfold dig. rewrite !digits2_log2, H.
  rewrite Z.log2_mul_pow2 by lia. lia.
Qed.

Lemma dig_same_value m e M E : same_value m e M E -> dig m + e = dig M + E.
Proof.
  intros [[Hle H]|[Hlt H]].
  - rewrite (dig_shift m M (e - E)) by (lia || exact H). lia.
  - rewrite (dig_shift M m (E - e)) by (lia || exact H). lia.
Qed.

Lemma binary_round_aux_canonical s M E :
  fexp prec emax (dig M + E) = E -> E <= emax - prec ->
  binary_round_aux prec emax s (Zpos M) E loc_Exact = S754_finite s M E.
Proof.
  intros Hf Hmax. unfold binary_round_aux, shr_fexp.
  cbn [Zdigits2 shr_record_of_loc]. fold (dig M). rewrite Hf, Z.sub_diag.
  cbn [shr shr_m loc_of_shr_record round_nearest_even Zdigits2 shr_record_of_loc].
  fold (dig M). rewrite Hf, Z.sub_diag. cbn [shr shr_m].
  apply Z.leb_le in Hmax. now rewrite Hmax.
Qed.

Lemma binary_round_repr s m e M E :
  same_value m e M E ->
  E = fexp prec emax (dig m + e) ->
  E <= emax - prec ->
  binary_round prec emax s m e = S754_finite s M E.
Proof.
  intros Hv HE Hmax.
  pose proof (dig_same_value _ _ _ _ Hv) as Hd.
  assert (HfM : fexp prec emax (dig M + E) = E) by (rewrite <- Hd; auto).
  unfold binary_round. fold (dig m). rewrite <- HE. unfold shl_align.
  destruct Hv as [[Hle H]|[Hlt H]].
  - destruct (E - e) as [|n|d] eqn:Hn; try lia.
    + replace (e - E) with 0 in H by lia. rewrite Z.mul_1_r in H.
      injection H as <-. replace e with E by lia.
      now apply binary_round_aux_canonical.
    + assert (Pos.iter xO m d = M) as ->.
      { apply Pos2Z.inj. rewrite iter_xO, H. pow_eq. }
      now apply binary_round_aux_canonical.
  - destruct (E - e) as [|n|d] eqn:Hn; try lia.
    assert (m = Pos.iter xO M n) as ->.
    { apply Pos2Z.inj. rewrite iter_xO. exact H. }
    unfold binary_round_aux, shr_fexp.
    cbn [Zdigits2 shr_record_of_loc].
    replace (Zpos (digits2_pos (Pos.iter xO M n))) with (dig (Pos.iter xO M n)) by reflexivity.
    rewrite <- HE, Hn. cbn [shr]. rewrite iter_shr_1.
    cbn [shr_m loc_of_shr_record round_nearest_even Zdigits2 shr_record_of_loc].
    fold (dig M). replace (e + Zpos n) with E by lia.
    rewrite HfM, Z.sub_diag. cbn [shr shr_m].
    apply Z.leb_le in Hmax. now rewrite Hmax.
Qed.

Lemma pow2_split a b : 0 <= a -> 0 <= b -> 2 ^ (a + b) = 2 ^ a * 2 ^ b.
Proof. intros. now apply Z.pow_add_r. Qed.

Lemma fexp_small d : 1 <= d -> fexp prec emax d = d - prec.
Proof. intros Hd. unfold fexp, emin. lia. Qed.

Lemma dig_bound c : Zpos c <= 2 ^ prec -> 1 <= dig c <= prec + 1.
Proof.
  intros Hc. unfold dig. rewrite digits2_log2.
  pose proof (Z.log2_nonneg (Zpos c)).
  pose proof (Z.log2_le_mono _ _ Hc) as Hl.
  rewrite Z.log2_pow2 in Hl by lia. lia.
Qed.

(** The canonical form of an integer of at most [prec] bits, or of
    [2 ^ prec]. *)
Lemma integer_form c :
  Zpos c <= 2 ^ prec ->
  exists M, same_value c 0 M (dig c - prec).
Proof.
  intros Hc. pose proof (dig_bound c Hc) as Hd.
  destruct (Z.eq_dec (dig c) (prec + 1)) as [Heq|Hne].
  - assert (Hc2 : Zpos c = 2 ^ prec).
    { apply Z.le_antisymm; [exact Hc|].
      unfold dig in Heq. rewrite digits2_log2 in Heq.
      assert (Hl : Z.log2 (Zpos c) = prec) by lia.
      rewrite <- Hl. apply Z.log2_spec. lia. }
    exists (Z.to_pos (2 ^ (prec - 1))). right. split; [lia|].
    rewrite Z2Pos.id by (apply Z.pow_pos_nonneg; lia).
    rewrite Hc2, Heq. replace (prec + 1 - prec - 0) with 1 by lia.
    replace prec with (prec - 1 + 1) at 1 by lia.
    rewrite pow2_split by lia. reflexivity.
  - exists (Z.to_pos (Zpos c * 2 ^ (prec - dig c))). left. split; [lia|].
    rewrite Z2Pos.id.
    + pow_eq.
    + apply Z.mul_pos_pos; [lia|apply Z.pow_pos_nonneg; lia].
Qed.

Lemma binary_round_integer s m e c :
  Zpos c <= 2 ^ prec ->
  denotes m e c ->
  exists M, binary_round prec emax s m e = S754_finite s M (dig c - prec) /\
            same_value c 0 M (dig c - prec).
Proof.
  intros Hc Hden. pose proof (dig_bound c Hc) as Hd.
  destruct (integer_form c Hc) as [M HM]. exists M. split; [|exact HM].
  assert (Hdig : dig m + e = dig c).
  { destruct Hden as [[He H]|[He H]].
    - rewrite (dig_shift c m (- e)) by (lia || exact H). lia.
    - rewrite (dig_shift m c e) by (lia || exact H). lia. }
  apply binary_round_repr; [|rewrite Hdig, fexp_small; lia|lia].
  set (E := dig c - prec) in *.
  destruct HM as [[HE0 HM]|[HE0 HM]]; rewrite ?Z.sub_0_r, ?Z.sub_0_l in HM.
  - (* M = c * 2 ^ (- E) *)
    destruct Hden as [[He H]|[He H]].
    + destruct (Z_le_gt_dec E e) as [HEe|HEe]; [left|right]; (split; [lia|]).
      * rewrite HM, H, <- Z.mul_assoc, <- pow2_split by lia.
        pow_eq.
      * rewrite HM, H, <- Z.mul_assoc, <- pow2_split by lia.
        pow_eq.
    + left. split; [lia|].
      rewrite HM, H, <- Z.mul_assoc, <- pow2_split by lia.
      pow_eq.
  - (* c = M * 2 ^ E, E = 1 *)
    destruct Hden as [[He H]|[He H]].
    + right. split; [lia|].
      rewrite H, HM, <- Z.mul_assoc, <- pow2_split by lia.
      pow_eq.
    + destruct (Z_le_gt_dec E e) as [HEe|HEe]; [left|right]; (split; [lia|]).
      * rewrite HM in H. replace e with (e - E + E) in H at 1 by lia.
        rewrite pow2_split, Z.mul_assoc in H by lia.
        apply Z.mul_cancel_r in H; [exact H|].
        apply Z.pow_nonzero; lia.
      * rewrite HM in H.
        assert (He0 : e = 0) by (unfold E in *; lia). subst e.
        rewrite Z.mul_1_r in H. now rewrite <- H, Z.sub_0_r.
Qed.

Lemma same_value_unique c e M M' E :
  same_value c e M E -> same_value c e M' E -> M = M'.
Proof.
  intros [[H1 H2]|[H1 H2]] [[H3 H4]|[H3 H4]]; try lia.
  apply Pos2Z.inj. rewrite H2 in H4.
  apply Z.mul_cancel_r in H4; [exact H4|]. apply Z.pow_nonzero; lia.
Qed.

Lemma denotes_self c : denotes c 0 c.
Proof. left. split; [lia|]. cbn. lia. Qed.

(** Rounding [m * 2 ^ e] gives the same number as rounding the integer it
    denotes. *)
Lemma binary_round_denotes s m e c :
  Zpos c <= 2 ^ prec ->
  denotes m e c ->
  binary_round prec emax s m e = binary_round prec emax s c 0.
Proof.
  intros Hc Hden.
  destruct (binary_round_integer s m e c Hc Hden) as (M & -> & HM).
  destruct (binary_round_integer s c 0 c Hc (denotes_self c)) as (M' & -> & HM').
  now rewrite (same_value_unique _ _ _ _ _ HM HM').
Qed.

Lemma normalize_int S e z :
  Z.abs z <= 2 ^ prec ->
  (e <= 0 -> S = z * 2 ^ (- e)) ->
  (0 <= e -> z = S * 2 ^ e) ->
  binary_normalize prec emax S e false = of_int z.
Proof.
  intros Hz Hneg Hpos. unfold IEEE.of_Z, binary_normalize.
  assert (Hp : forall k, 0 <= k -> 0 < 2 ^ k) by (intros; now apply Z.pow_pos_nonneg).
  destruct (Z_le_gt_dec e 0) as [He|He].
  - specialize (Hneg He). pose proof (Hp (- e) ltac:(lia)) as HP.
    destruct S as [|m|m], z as [|c|c]; try reflexivity; try nia.
    + apply binary_round_denotes; [lia|]. left. split; [lia|exact Hneg].
    + apply binary_round_denotes; [lia|]. left. split; [lia|].
      rewrite <- !Pos2Z.opp_pos in Hneg. lia.
  - specialize (Hpos ltac:(lia)). pose proof (Hp e ltac:(lia)) as HP.
    destruct S as [|m|m], z as [|c|c]; try reflexivity; try nia.
    + apply binary_round_denotes; [lia|]. right. split; [lia|exact Hpos].
    + apply binary_round_denotes; [lia|]. right. split; [lia|].
      rewrite <- !Pos2Z.opp_pos in Hpos. lia.
Qed.

Lemma shl_align_value m e e' :
  e' <= e -> Zpos (fst (shl_align m e e')) = Zpos m * 2 ^ (e - e').
Proof.
  intros Hle. unfold shl_align.
  destruct (e' - e) as [|p|d] eqn:Hd; try lia.
  - replace (e - e') with 0 by lia. cbn [fst]. lia.
  - cbn [fst]. rewrite iter_xO. pow_eq.
Qed.

(** The shape of a nonzero integer as a number of the format. *)
Lemma of_int_nonzero z :
  z <> 0 -> Z.abs z <= 2 ^ prec ->
  exists M E,
    of_int z = S754_finite (z <? 0) M E /\ E <= 1 /\
    (forall e', e' <= E -> e' <= 0 ->
       cond_Zopp (z <? 0) (Zpos M * 2 ^ (E - e')) = z * 2 ^ (- e')) /\
    (forall e', e' <= E -> 0 <= e' ->
       z = cond_Zopp (z <? 0) (Zpos M * 2 ^ (E - e')) * 2 ^ e').
Proof.
  intros Hz Hb.
  assert (Hgen : forall (s : bool) c, Zpos c <= 2 ^ prec ->
    exists M E, binary_round prec emax s c 0 = S754_finite s M E /\ E <= 1 /\
      (forall e', e' <= E -> e' <= 0 -> Zpos M * 2 ^ (E - e') = Zpos c * 2 ^ (- e')) /\
      (forall e', e' <= E -> 0 <= e' -> Zpos c = Zpos M * 2 ^ (E - e') * 2 ^ e')).
  { intros s c Hc. pose proof (dig_bound c Hc) as Hd.
    destruct (binary_round_integer s c 0 c Hc (denotes_self c)) as (M & HM & Hv).
    exists M, (dig c - prec). split; [exact HM|]. split; [lia|].
    destruct Hv as [[HE Hv]|[HE Hv]]; rewrite ?Z.sub_0_r, ?Z.sub_0_l in Hv.
    - split; intros e' H1 H2.
      + rewrite Hv, <- Z.mul_assoc, <- pow2_split by lia. pow_eq.
      + rewrite Hv, <- !Z.mul_assoc, <- !pow2_split by lia.
        replace (- (dig c - prec) + (dig c - prec - e' + e')) with 0 by lia. lia.
    - split; intros e' H1 H2.
      + rewrite Hv, <- Z.mul_assoc, <- pow2_split by lia. pow_eq.
      + rewrite Hv, <- !Z.mul_assoc, <- !pow2_split by lia. pow_eq. }
  unfold IEEE.of_Z, binary_normalize.
  destruct z as [|c|c]; [congruence| |].
  - destruct (Hgen false c ltac:(lia)) as (M & E & H1 & H2 & H3 & H4).
    exists M, E. cbn [Z.ltb Z.compare cond_Zopp]. auto.
  - destruct (Hgen true c ltac:(lia)) as (M & E & H1 & H2 & H3 & H4).
    exists M, E. cbn [Z.ltb Z.compare cond_Zopp].
    split; [exact H1|]. split; [exact H2|]. split; intros e' Ha Hb'.
    + pose proof (H3 e' Ha Hb') as H5. lia.
    + pose proof (H4 e' Ha Hb') as H5. lia.
Qed.

Lemma of_int_0 : of_int 0 = S754_zero false.
Proof. reflexivity. Qed.

(** Addition is exact on integers as long as the operands and the result
    have at most [prec] bits (or are [2 ^ prec]). *)
Lemma SFadd_int a b :
  Z.abs a <= 2 ^ prec -> Z.abs b <= 2 ^ prec -> Z.abs (a + b) <= 2 ^ prec ->
  IEEE.add fmt (of_int a) (of_int b) = of_int (a + b).
Proof.
  intros Ha Hb Hab.
  destruct (Z.eq_dec a 0) as [->|Hna].
  { rewrite of_int_0, Z.add_0_l. destruct (Z.eq_dec b 0) as [->|Hnb]; [reflexivity|].
    destruct (of_int_nonzero b Hnb Hb) as (M & E & -> & _). reflexivity. }
  destruct (Z.eq_dec b 0) as [->|Hnb].
  { rewrite of_int_0, Z.add_0_r.
    destruct (of_int_nonzero a Hna Ha) as (M & E & -> & _). reflexivity. }
  destruct (of_int_nonzero a Hna Ha) as (Ma & Ea & -> & HEa & Ha1 & Ha2).
  destruct (of_int_nonzero b Hnb Hb) as (Mb & Eb & -> & HEb & Hb1 & Hb2).
  unfold IEEE.add. cbn [SFadd]. rewrite !shl_align_value by lia.
  apply normalize_int; [exact Hab| |].
  - intros He. rewrite Ha1, Hb1 by lia. lia.
  - intros He. rewrite (Ha2 (Z.min Ea Eb)) at 1 by lia.
    rewrite (Hb2 (Z.min Ea Eb)) at 1 by lia. lia.
Qed.
End Exact.

(* ===================================================================== *)
(** * Sums of integers *)
(* ===================================================================== *)

Lemma Zsum_app l1 l2 : Zsum (l1 ++ l2) = Zsum l1 + Zsum l2.
Proof. unfold Zsum. induction l1 as [|z l1 IH]; cbn; lia. Qed.

Lemma sum_abs_app l1 l2 : sum_abs (l1 ++ l2) = sum_abs l1 + sum_abs l2.
Proof. unfold sum_abs. induction l1 as [|z l1 IH]; cbn; lia. Qed.

Lemma sum_abs_nonneg l : 0 <= sum_abs l.
Proof. unfold sum_abs. induction l as [|z l IH]; cbn; lia. Qed.

Lemma Zsum_abs l : Z.abs (Zsum l) <= sum_abs l.
Proof. unfold Zsum, sum_abs. induction l as [|z l IH]; cbn; lia. Qed.

Lemma within_abs a : within a (Z.abs a).
Proof. unfold within. lia. Qed.

Lemma within_nonneg a A : within a A -> 0 <= A.
Proof. unfold within. lia. Qed.

Lemma within_add a b A B : within a A -> within b B -> within (a + b) (A + B).
Proof. unfold within. lia. Qed.

Lemma within_Zsum l : within (Zsum l) (sum_abs l).
Proof. apply Zsum_abs. Qed.

Lemma sum_abs_cons z l : sum_abs (z :: l) = Z.abs z + sum_abs l.
Proof. reflexivity. Qed.

Lemma Zsum_nil : Zsum [] = 0.
Proof. reflexivity. Qed.

Lemma Zsum_cons z l : Zsum (z :: l) = z + Zsum l.
Proof. reflexivity. Qed.

Create HintDb within.
#[local] Hint Resolve within_abs within_add within_Zsum : within.

Section SumExact.
Variable fmt : IEEE.format.
Hypothesis Hprec : 0 < IEEE.prec fmt.
Hypothesis Hemax : IEEE.prec fmt < IEEE.emax fmt.

Local Abbreviation bound := (2 ^ IEEE.prec fmt).
Local Abbreviation ofZ := (IEEE.of_Z fmt).
Local Abbreviation fadd := (IEEE.add fmt).

Lemma add_int a b A B :
within a A -> within b B -> A + B <= bound ->
fadd (ofZ a) (ofZ b) = ofZ (a + b).
Proof.
unfold within. intros Ha Hb H. apply SFadd_int; auto; lia.
Qed.

Lemma add_neg_zero z : Z.abs z <= bound -> fadd neg_zero (ofZ z) = ofZ z.
Proof.
intros Hz. destruct (Z.eq_dec z 0) as [->|Hnz]; [reflexivity|].
destruct (of_int_nonzero fmt Hprec Hemax z Hnz Hz) as (M & E & -> & _).
reflexivity.
Qed.

Lemma fold_add_int zs : forall p P,
within p P -> P + sum_abs zs <= bound ->
fold_left fadd (map ofZ zs) (ofZ p) = ofZ (p + Zsum zs).
Proof.
induction zs as [|z zs IH]; intros p P Hp Hb; cbn [map fold_left].
- now rewrite Z.add_0_r.
- rewrite sum_abs_cons in Hb. rewrite Zsum_cons.
  pose proof (sum_abs_nonneg zs). pose proof (within_abs z) as Hz.
  rewrite (add_int p z P (Z.abs z)) by (assumption || lia).
  rewrite (IH (p + z) (P + Z.abs z)) by (auto with within || lia).
  f_equal. lia.
Qed.

Lemma sum_small_int zs :
zs <> [] -> sum_abs zs <= bound ->
np.sum_small fmt (map ofZ zs) = ofZ (Zsum zs).
Proof.
destruct zs as [|z zs]; [congruence|]. intros _ Hb.
unfold np.sum_small. cbn [map fold_left].
rewrite sum_abs_cons in Hb. pose proof (sum_abs_nonneg zs).
rewrite add_neg_zero by lia.
now apply (fold_add_int zs z (Z.abs z)); [apply within_abs|].
Qed.

Lemma combine_int p0 p1 p2 p3 p4 p5 p6 p7 A0 A1 A2 A3 A4 A5 A6 A7 :
within p0 A0 -> within p1 A1 -> within p2 A2 -> within p3 A3 ->
within p4 A4 -> within p5 A5 -> within p6 A6 -> within p7 A7 ->
A0 + A1 + A2 + A3 + A4 + A5 + A6 + A7 <= bound ->
fadd (fadd (fadd (ofZ p0) (ofZ p1)) (fadd (ofZ p2) (ofZ p3)))
     (fadd (fadd (ofZ p4) (ofZ p5)) (fadd (ofZ p6) (ofZ p7)))
= ofZ (p0 + p1 + p2 + p3 + p4 + p5 + p6 + p7) /\
within (p0 + p1 + p2 + p3 + p4 + p5 + p6 + p7)
       (A0 + A1 + A2 + A3 + A4 + A5 + A6 + A7).
Proof.
intros H0 H1 H2 H3 H4 H5 H6 H7 Hb.
pose proof (within_nonneg _ _ H0). pose proof (within_nonneg _ _ H1).
pose proof (within_nonneg _ _ H2). pose proof (within_nonneg _ _ H3).
pose proof (within_nonneg _ _ H4). pose proof (within_nonneg _ _ H5).
pose proof (within_nonneg _ _ H6). pose proof (within_nonneg _ _ H7).
pose proof (within_add _ _ _ _ H0 H1) as H01.
pose proof (within_add _ _ _ _ H2 H3) as H23.
pose proof (within_add _ _ _ _ H4 H5) as H45.
pose proof (within_add _ _ _ _ H6 H7) as H67.
pose proof (within_add _ _ _ _ H01 H23) as H03.
pose proof (within_add _ _ _ _ H45 H67) as H47.
rewrite (add_int p0 p1 A0 A1), (add_int p2 p3 A2 A3),
        (add_int p4 p5 A4 A5), (add_int p6 p7 A6 A7) by (assumption || lia).
rewrite (add_int _ _ _ _ H01 H23), (add_int _ _ _ _ H45 H67) by lia.
rewrite (add_int _ _ _ _ H03 H47) by lia.
split; [f_equal; ring|].
replace (p0 + p1 + p2 + p3 + p4 + p5 + p6 + p7)
  with (p0 + p1 + (p2 + p3) + (p4 + p5 + (p6 + p7))) by ring.
replace (A0 + A1 + A2 + A3 + A4 + A5 + A6 + A7)
  with (A0 + A1 + (A2 + A3) + (A4 + A5 + (A6 + A7))) by ring.
exact (within_add _ _ _ _ H03 H47).
Qed.

Lemma unrolled_short r0 r1 r2 r3 r4 r5 r6 r7 l :
(length l < 8)%nat ->
np.unrolled fmt r0 r1 r2 r3 r4 r5 r6 r7 l
= fold_left fadd l
    (fadd (fadd (fadd r0 r1) (fadd r2 r3)) (fadd (fadd r4 r5) (fadd r6 r7))).
Proof.
intros Hlen.
do 8 (destruct l as [|? l]; [reflexivity|]). cbn [length] in Hlen. lia.
Qed.

Lemma unrolled_int n : forall zs p0 p1 p2 p3 p4 p5 p6 p7 A0 A1 A2 A3 A4 A5 A6 A7,
(length zs <= n)%nat ->
within p0 A0 -> within p1 A1 -> within p2 A2 -> within p3 A3 ->
within p4 A4 -> within p5 A5 -> within p6 A6 -> within p7 A7 ->
A0 + A1 + A2 + A3 + A4 + A5 + A6 + A7 + sum_abs zs <= bound ->
np.unrolled fmt (ofZ p0) (ofZ p1) (ofZ p2) (ofZ p3)
                (ofZ p4) (ofZ p5) (ofZ p6) (ofZ p7) (map ofZ zs)
= ofZ (p0 + p1 + p2 + p3 + p4 + p5 + p6 + p7 + Zsum zs).
Proof.
induction n as [|n IH];
  intros zs p0 p1 p2 p3 p4 p5 p6 p7 A0 A1 A2 A3 A4 A5 A6 A7
         Hlen H0 H1 H2 H3 H4 H5 H6 H7 Hb;
  pose proof (sum_abs_nonneg zs) as Hnn;
  (destruct (Nat.lt_ge_cases (length zs) 8) as [H8|H8];
   [rewrite unrolled_short by (rewrite length_map; exact H8);
    destruct (combine_int _ _ _ _ _ _ _ _ _ _ _ _ _ _ _ _
                H0 H1 H2 H3 H4 H5 H6 H7 ltac:(lia)) as [-> Hw];
    exact (fold_add_int zs _ _ Hw Hb)|]);
  [lia|].
destruct zs as [|z0 [|z1 [|z2 [|z3 [|z4 [|z5 [|z6 [|z7 rest]]]]]]]];
  cbn [length] in Hlen, H8; try lia.
cbn [map np.unrolled].
rewrite !sum_abs_cons in Hb. rewrite !Zsum_cons.
pose proof (sum_abs_nonneg rest) as Hrest.
pose proof (within_nonneg _ _ H0). pose proof (within_nonneg _ _ H1).
pose proof (within_nonneg _ _ H2). pose proof (within_nonneg _ _ H3).
pose proof (within_nonneg _ _ H4). pose proof (within_nonneg _ _ H5).
pose proof (within_nonneg _ _ H6). pose proof (within_nonneg _ _ H7).
pose proof (within_abs z0) as Hz0. pose proof (within_abs z1) as Hz1.
pose proof (within_abs z2) as Hz2. pose proof (within_abs z3) as Hz3.
pose proof (within_abs z4) as Hz4. pose proof (within_abs z5) as Hz5.
pose proof (within_abs z6) as Hz6. pose proof (within_abs z7) as Hz7.
pose proof (Z.abs_nonneg z0). pose proof (Z.abs_nonneg z1).
pose proof (Z.abs_nonneg z2). pose proof (Z.abs_nonneg z3).
pose proof (Z.abs_nonneg z4). pose proof (Z.abs_nonneg z5).
pose proof (Z.abs_nonneg z6). pose proof (Z.abs_nonneg z7).
generalize dependent (Z.abs z0). generalize dependent (Z.abs z1).
generalize dependent (Z.abs z2). generalize dependent (Z.abs z3).
generalize dependent (Z.abs z4). generalize dependent (Z.abs z5).
generalize dependent (Z.abs z6). generalize dependent (Z.abs z7).
intros a7 Hz7 ? a6 Hz6 ? a5 Hz5 ? a4 Hz4 ? a3 Hz3 ? a2 Hz2 ? a1 Hz1 ?
       a0 Hb Hz0 ?.
rewrite (add_int p0 z0 A0 a0), (add_int p1 z1 A1 a1),
        (add_int p2 z2 A2 a2), (add_int p3 z3 A3 a3),
        (add_int p4 z4 A4 a4), (add_int p5 z5 A5 a5),
        (add_int p6 z6 A6 a6), (add_int p7 z7 A7 a7) by (assumption || lia).
rewrite (IH rest _ _ _ _ _ _ _ _
           (A0 + a0) (A1 + a1) (A2 + a2) (A3 + a3)
           (A4 + a4) (A5 + a5) (A6 + a6) (A7 + a7))
  by (auto using within_add || lia).
f_equal. ring.
Qed.

Lemma sum_block_int zs :
zs <> [] -> sum_abs zs <= bound ->
np.sum_block fmt (map ofZ zs) = ofZ (Zsum zs).
Proof.
intros Hne Hb.
destruct zs as [|z0 [|z1 [|z2 [|z3 [|z4 [|z5 [|z6 [|z7 rest]]]]]]]];
  try (apply (sum_small_int _ Hne Hb)).
cbn [map np.sum_block].
rewrite !sum_abs_cons in Hb. rewrite !Zsum_cons.
rewrite (unrolled_int (length rest) rest _ _ _ _ _ _ _ _
           (Z.abs z0) (Z.abs z1) (Z.abs z2) (Z.abs z3)
           (Z.abs z4) (Z.abs z5) (Z.abs z6) (Z.abs z7));
  try apply within_abs; [f_equal; ring|reflexivity|].
etransitivity; [|exact Hb]. apply Z.eq_le_incl. ring.
Qed.

Lemma pairwise_sum_int fuel : forall zs,
zs <> [] -> sum_abs zs <= bound ->
np.pairwise_sum fmt fuel (map ofZ zs) = ofZ (Zsum zs).
Proof.
induction fuel as [|fuel IH]; intros zs Hne Hb; cbn [np.pairwise_sum];
  rewrite length_map;
  destruct (Nat.ltb_spec (length zs) 8) as [H8|H8];
  try (now apply sum_small_int);
  destruct (Nat.leb_spec (length zs) 128) as [H128|H128];
  try (now apply sum_block_int).
set (n2 := (length zs / 2 - (length zs / 2) mod 8)%nat).
assert (Hn2 : (0 < n2 < length zs)%nat).
{ subst n2.
  pose proof (Nat.div_mod_eq (length zs) 2).
  pose proof (Nat.mod_upper_bound (length zs) 2 ltac:(lia)).
  pose proof (Nat.mod_upper_bound (length zs / 2) 8 ltac:(lia)). lia. }
clearbody n2. rewrite firstn_map, skipn_map.
pose proof (take_drop n2 zs) as Hsplit.
assert (Hab : sum_abs (take n2 zs) + sum_abs (drop n2 zs) = sum_abs zs)
  by (rewrite <- sum_abs_app; now rewrite Hsplit).
pose proof (sum_abs_nonneg (take n2 zs)).
pose proof (sum_abs_nonneg (drop n2 zs)).
rewrite !IH.
- rewrite (add_int _ _ _ _ (within_Zsum (take n2 zs)) (within_Zsum (drop n2 zs)))
    by lia.
  now rewrite <- Zsum_app, Hsplit.
- intros Hnil. apply (f_equal length) in Hnil.
  rewrite ?length_drop, ?length_take in Hnil. cbn [length] in Hnil. lia.
- lia.
- intros Hnil. apply (f_equal length) in Hnil.
  rewrite ?length_drop, ?length_take in Hnil. cbn [length] in Hnil. lia.
- lia.
Qed.

(** A floating-point reduction is exact when the items are integers whose
  absolute values add up to at most [2 ^ prec]. *)
Lemma add_reduce_float_int zs :
sum_abs zs <= bound ->
np.add_reduce_float fmt (map ofZ zs) = ofZ (Zsum zs).
Proof.
intros Hb. destruct (decide (zs = [])) as [->|Hne]; [reflexivity|].
unfold np.add_reduce_float.
destruct (map ofZ zs) eqn:Hm; [now destruct zs|]. rewrite <- Hm.
rewrite length_map, pairwise_sum_int by assumption.
pose proof (Zsum_abs zs). apply add_neg_zero. lia.
Qed.

(** The depth of the recursion never exceeds the fuel [np.add_reduce_float]
  provides: any fuel at least the length of the list gives the same sum. *)
Lemma pairwise_sum_fuel f1 : forall f2 l,
(length l <= f1)%nat -> (length l <= f2)%nat ->
np.pairwise_sum fmt f1 l = np.pairwise_sum fmt f2 l.
Proof.
induction f1 as [|f1 IH]; intros f2 l H1 H2.
- destruct l; [|cbn in H1; lia]. now destruct f2.
- destruct f2 as [|f2].
  + destruct l; [|cbn in H2; lia]. reflexivity.
  + cbn [np.pairwise_sum].
    destruct (Nat.ltb_spec (length l) 8) as [H8|H8]; [reflexivity|].
    destruct (Nat.leb_spec (length l) 128) as [H128|H128]; [reflexivity|].
    set (n2 := (length l / 2 - (length l / 2) mod 8)%nat).
    assert (Hn2 : (0 < n2 < length l)%nat).
    { subst n2.
      pose proof (Nat.div_mod_eq (length l) 2).
      pose proof (Nat.mod_upper_bound (length l) 2 ltac:(lia)).
      pose proof (Nat.mod_upper_bound (length l / 2) 8 ltac:(lia)). lia. }
    clearbody n2.
    rewrite (IH f2 (take n2 l)), (IH f2 (drop n2 l));
      rewrite ?length_take, ?length_drop; (reflexivity || lia).
Qed.
End SumExact.

(* ===================================================================== *)
(** * Integer reductions and conversions *)
(* ===================================================================== *)

Lemma to_signed_congr w z1 z2 :
  z1 mod 2 ^ w = z2 mod 2 ^ w -> np.to_signed w z1 = np.to_signed w z2.
Proof. unfold np.to_signed. now intros ->. Qed.

Lemma to_signed_mod w z : 0 < w -> np.to_signed w z mod 2 ^ w = z mod 2 ^ w.
Proof.
  intros Hw. unfold np.to_signed.
  assert (Hp : 0 < 2 ^ w) by (apply Z.pow_pos_nonneg; lia).
  destruct (z mod 2 ^ w <? 2 ^ (w - 1)).
  - apply Z.mod_mod. lia.
  - replace (z mod 2 ^ w - 2 ^ w) with (z mod 2 ^ w + (-1) * 2 ^ w) by lia.
    rewrite Z.mod_add by lia. apply Z.mod_mod. lia.
Qed.

Lemma to_signed_small w z :
  0 < w -> - 2 ^ (w - 1) <= z < 2 ^ (w - 1) -> np.to_signed w z = z.
Proof.
  intros Hw Hz. unfold np.to_signed.
  assert (Hp : 2 ^ w = 2 * 2 ^ (w - 1)).
  { replace w with (w - 1 + 1) at 1 by lia. rewrite Z.pow_add_r by lia. lia. }
  destruct (Z_lt_ge_dec z 0) as [Hneg|Hpos].
  - replace (z mod 2 ^ w) with (z + 2 ^ w).
    + destruct (Z.ltb_spec (z + 2 ^ w) (2 ^ (w - 1))); lia.
    + symmetry. rewrite <- (Z.mod_small (z + 2 ^ w) (2 ^ w)) by lia.
      replace (z + 2 ^ w) with (z + 1 * 2 ^ w) at 1 by lia.
      now rewrite Z.mod_add by lia.
  - rewrite Z.mod_small by lia.
    destruct (Z.ltb_spec z (2 ^ (w - 1))); lia.
Qed.

(** The wrapping loop computes the mathematical sum, wrapped once. *)
Lemma add_reduce_int_closed l :
  np.add_reduce_int l = np.to_signed 64 (Zsum l).
Proof.
  unfold np.add_reduce_int.
  change 0 with (np.to_signed 64 0) at 1.
  change (Zsum l) with (0 + Zsum l). generalize 0 as a.
  induction l as [|x l IH]; intros a; cbn [fold_left].
  - rewrite Zsum_nil. now rewrite Z.add_0_r.
  - rewrite Zsum_cons.
    rewrite (to_signed_congr 64 (np.to_signed 64 a + x) (a + x)).
    + rewrite IH. f_equal. lia.
    + rewrite Z.add_mod, to_signed_mod, <- Z.add_mod by lia. reflexivity.
Qed.

Lemma binary64_prec : 0 < IEEE.prec IEEE.binary64.
Proof. reflexivity. Qed.

Lemma binary64_emax : IEEE.prec IEEE.binary64 < IEEE.emax IEEE.binary64.
Proof. reflexivity. Qed.

Lemma binary32_prec : 0 < IEEE.prec IEEE.binary32.
Proof. reflexivity. Qed.

Lemma binary32_emax : IEEE.prec IEEE.binary32 < IEEE.emax IEEE.binary32.
Proof. reflexivity. Qed.

(** Widening an integer of binary32 to binary64 keeps the integer. *)
Lemma widen_int z :
  Z.abs z <= 2 ^ 24 ->
  IEEE.widen IEEE.binary64 (IEEE.of_Z IEEE.binary32 z) = IEEE.of_Z IEEE.binary64 z.
Proof.
  intros Hz. destruct (Z.eq_dec z 0) as [->|Hnz]; [reflexivity|].
  destruct (of_int_nonzero IEEE.binary32 binary32_prec binary32_emax z Hnz Hz)
    as (M & E & -> & HE & H1 & H2).
  cbn [IEEE.widen].
  transitivity (binary_normalize (IEEE.prec IEEE.binary64) (IEEE.emax IEEE.binary64)
                  (cond_Zopp (z <? 0) (Zpos M)) E false).
  { now destruct (z <? 0). }
  apply (normalize_int IEEE.binary64 binary64_prec binary64_emax).
  - change (IEEE.prec IEEE.binary64) with 53. lia.
  - intros He. rewrite <- (H1 E) by lia. now rewrite Z.sub_diag, Z.mul_1_r.
  - intros He. rewrite (H2 E) at 1 by lia. now rewrite Z.sub_diag, Z.mul_1_r.
Qed.

(* ===================================================================== *)
(** * The items of a window *)
(* ===================================================================== *)

Lemma map_seq_add {A} (g : nat -> A) a n : forall b,
  map (fun i => g (a + i)%nat) (seq b n) = map g (seq (a + b) n).
Proof.
  induction n as [|n IH]; intros b; cbn [seq map]; [reflexivity|].
  f_equal. rewrite IH. now rewrite Nat.add_succ_r.
Qed.

(** The items of [arr[lo:hi]] are the items of [arr] from position
    [lo * prod inner] on. *)
Lemma items_window d inner dt buffer lo hi :
  Forall (fun x => 0 < x) inner ->
  0 <= lo <= hi -> hi <= d ->
  np.items (window d inner dt buffer lo hi)
  = map (np.item (np.Array (d :: inner) dt buffer 0))
        (seq (Z.to_nat (lo * np.prod inner))
             (Z.to_nat ((hi - lo) * np.prod inner))).
Proof.
  intros Hinner Hlo Hhi. pose proof (prod_pos inner Hinner) as HP.
  pose proof (itemsize_pos dt) as Hw.
  unfold np.items, window, np.size.
  rewrite !adjust_in_range by lia.
  cbn [np.nd_shape np.prod fold_right]. fold (np.prod inner).
  rewrite Z.max_r by lia.
  rewrite <- (Nat.add_0_r (Z.to_nat (lo * np.prod inner))) at 1.
  rewrite <- map_seq_add.
  apply map_ext. intros i. unfold np.item.
  cbn [np.nd_dtype np.nd_offset np.nd_base]. do 3 f_equal.
  rewrite Z.add_0_l, Z2Nat.inj_mul by nia. cbn [Z.to_nat]. lia.
Qed.

Lemma items_split d inner dt buffer k :
  Forall (fun x => 0 < x) inner -> 0 <= k <= d ->
  np.items (window d inner dt buffer 0 d)
  = np.items (window d inner dt buffer 0 k)
    ++ np.items (window d inner dt buffer k d).
Proof.
  intros Hinner Hk. pose proof (prod_pos inner Hinner) as HP.
  rewrite !items_window by (assumption || lia).
  rewrite <- map_app. f_equal.
  rewrite !Z.sub_0_r, Z.mul_0_l. cbn [Z.to_nat].
  rewrite <- (Nat.add_0_l (Z.to_nat (k * np.prod inner))) at 2.
  rewrite <- seq_app. f_equal.
  rewrite <- Z2Nat.inj_add by nia. f_equal. lia.
Qed.

Lemma Forall2_map_eq {A B C} (f : A -> C) (g : B -> C) l1 l2 :
  Forall2 (fun a b => f a = g b) l1 l2 -> map f l1 = map g l2.
Proof. induction 1; cbn; congruence. Qed.

Lemma sum_format_prec dt : IEEE.prec (sum_format dt) <= 53.
Proof. destruct dt; cbn; lia. Qed.

(** When the items of a view are integers whose absolute values add up to
    at most [2 ^ prec] of the format they are summed in, [float(np.sum(...))]
    is their exact sum. *)
Lemma sum_integral a zs :
  Forall2 (integral (np.nd_dtype a)) (np.items a) zs ->
  sum_abs zs <= 2 ^ IEEE.prec (sum_format (np.nd_dtype a)) ->
  float (np.sum a) = IEEE.of_Z IEEE.binary64 (Zsum zs).
Proof.
  intros Hint Hb. unfold np.sum. pose proof (Zsum_abs zs) as Habs.
  destruct (np.nd_dtype a); cbn [integral sum_format] in Hint, Hb; cbn [float].
  - rewrite (Forall2_map_eq _ _ _ _ Hint).
    rewrite (add_reduce_float_int IEEE.binary32 binary32_prec binary32_emax) by exact Hb.
    apply widen_int. change (IEEE.prec IEEE.binary32) with 24 in Hb. lia.
  - rewrite (Forall2_map_eq _ _ _ _ Hint).
    now rewrite (add_reduce_float_int IEEE.binary64 binary64_prec binary64_emax).
  - rewrite (Forall2_map_eq (np.to_signed 32) (fun z => z) _ zs), map_id
      by (eapply Forall2_impl; [exact Hint|]; now intros ? ? ->).
    rewrite add_reduce_int_closed, to_signed_small; [reflexivity|lia|].
    change (IEEE.prec IEEE.binary64) with 53 in Hb. lia.
  - rewrite (Forall2_map_eq (np.to_signed 64) (fun z => z) _ zs), map_id
      by (eapply Forall2_impl; [exact Hint|]; now intros ? ? ->).
    rewrite add_reduce_int_closed, to_signed_small; [reflexivity|lia|].
    change (IEEE.prec IEEE.binary64) with 53 in Hb. lia.
Qed.

(* ===================================================================== *)
(** * Precision of the result *)
(* ===================================================================== *)





(* ===================================================================== *)
(** * Splitting a range *)
(* ===================================================================== *)

(** C5, as stated, fails: binary64 addition rounds.  On
    [[9007199254740992.0, 1.0, 1.0]] the ranges [0 .. 1) and [1 .. 3) give
    [9007199254740992.0] and [2.0], which add up to [9007199254740994.0],
    while the range [0 .. 3) gives [9007199254740992.0]. *)
Lemma chunk_sum_split_rounds :
  fst (chunk_sum dtype_names "psm_2p53" [3] "float64" 0 1 world_ties)
  = Ok (IEEE.of_Z IEEE.binary64 9007199254740992) /\
  fst (chunk_sum dtype_names "psm_2p53" [3] "float64" 1 3 world_ties)
  = Ok (IEEE.of_Z IEEE.binary64 2) /\
  fst (chunk_sum dtype_names "psm_2p53" [3] "float64" 0 3 world_ties)
  = Ok (IEEE.of_Z IEEE.binary64 9007199254740992) /\
  f64_add (IEEE.of_Z IEEE.binary64 9007199254740992) (IEEE.of_Z IEEE.binary64 2)
  = IEEE.of_Z IEEE.binary64 9007199254740994 /\
  IEEE.of_Z IEEE.binary64 9007199254740994
  <> IEEE.of_Z IEEE.binary64 9007199254740992.
Proof.
  repeat split; try (vm_compute; reflexivity). vm_compute. discriminate.
Qed.

(** C5, amended. Splitting is exact when no addition can round: if every
    item of the array is an integer (as every int32 or int64 item is, and
    as a floating-point item may be) and the absolute values of the items
    add up to at most [2 ^ 53] ([2 ^ 24] for float32), then for every
    [0 <= k <= n] the results over [0 .. k) and [k .. n) add up, in
    binary64, to the result over [0 .. n). *)
Theorem chunk_sum_split_exact
    (np_dtype : string -> option np.dtype) (w : shm.world) (n : string)
    (d : Z) (inner : list Z) (s : string) (dt : np.dtype)
    (buffer : list byte) (k : Z) (zs : list Z) :
  np_dtype s = Some dt ->
  shm.segments w !! n = Some buffer ->
  fits (d :: inner) dt buffer ->
  0 <= k <= d ->
  Forall2 (integral dt) (np.items (window d inner dt buffer 0 d)) zs ->
  sum_abs zs <= 2 ^ IEEE.prec (sum_format dt) ->
  exists x y z,
    fst (chunk_sum np_dtype n (d :: inner) s 0 k w) = Ok x /\
    fst (chunk_sum np_dtype n (d :: inner) s k d w) = Ok y /\
    fst (chunk_sum np_dtype n (d :: inner) s 0 d w) = Ok z /\
    f64_add x y = z.
Proof.
  intros Hd Hn Hfit Hk Hint Hb.
  assert (Hinner : Forall (fun x => 0 < x) inner).
  { destruct Hfit as (_ & Hpos & _). now inversion Hpos. }
  rewrite (items_split d inner dt buffer k Hinner Hk) in Hint.
  apply Forall2_app_inv_l in Hint as (zs1 & zs2 & H1 & H2 & ->).
  rewrite sum_abs_app in Hb.
  pose proof (sum_abs_nonneg zs1). pose proof (sum_abs_nonneg zs2).
  pose proof (sum_format_prec dt) as Hp.
  assert (Hpow : 2 ^ IEEE.prec (sum_format dt) <= 2 ^ 53)
    by (apply Z.pow_le_mono_r; [lia|exact Hp]).
  exists (IEEE.of_Z IEEE.binary64 (Zsum zs1)),
         (IEEE.of_Z IEEE.binary64 (Zsum zs2)),
         (IEEE.of_Z IEEE.binary64 (Zsum (zs1 ++ zs2))).
  rewrite !(chunk_sum_attached np_dtype w n _ _ _ _ _ _ Hd Hn).
  cbn [fst]. rewrite !(reduce_fits _ _ _ _ _ _ Hfit).
  repeat split.
  - f_equal. apply sum_integral; [exact H1|]. cbn [window np.nd_dtype]. lia.
  - f_equal. apply sum_integral; [exact H2|]. cbn [window np.nd_dtype]. lia.
  - f_equal. apply sum_integral.
    + rewrite (items_split d inner dt buffer k Hinner Hk).
      now apply Forall2_app.
    + rewrite sum_abs_app. cbn [window np.nd_dtype]. lia.
  - rewrite Zsum_app.
    apply (add_int IEEE.binary64 binary64_prec binary64_emax _ _
             (sum_abs zs1) (sum_abs zs2)); try apply within_Zsum.
    change (IEEE.prec IEEE.binary64) with 53. lia.
Qed.

Lemma chunk_sum_split_exact_witness :
  exists x y z,
    fst (chunk_sum dtype_names "psm_demo" [4] "float64" 0 1 world_1234) = Ok x /\
    fst (chunk_sum dtype_names "psm_demo" [4] "float64" 1 4 world_1234) = Ok y /\
    fst (chunk_sum dtype_names "psm_demo" [4] "float64" 0 4 world_1234) = Ok z /\
    f64_add x y = z.
Proof.
  apply (chunk_sum_split_exact dtype_names world_1234 "psm_demo" 4 []
           "float64" np.float64 bytes_1234 1 [1; 2; 3; 4]);
    [reflexivity | reflexivity | exact fits_1234 | lia | | vm_compute; discriminate].
  set (l := np.items _). vm_compute in l. subst l.
  repeat (constructor; [vm_compute; reflexivity|]). constructor.
Defined.

(* ===================================================================== *)
(** * The CPU-bound loop: bounds, period, congruence *)
(* ===================================================================== *)

Lemma range_succ n : 0 <= n -> range (n + 1) = range n ++ [n].
Proof.
  intros Hn. unfold range.
  replace (Z.to_nat (n + 1)) with (S (Z.to_nat n)) by lia.
  rewrite seq_S, map_app. cbn [map Nat.add]. now rewrite Z2Nat.id.
Qed.

Lemma cpu_heavy_nonpos n : n <= 0 -> cpu_heavy n = 0.
Proof.
  intros Hn. unfold cpu_heavy, range.
  now replace (Z.to_nat n) with O by lia.
Qed.

Lemma cpu_heavy_succ n :
  0 <= n -> cpu_heavy (n + 1) = cpu_heavy n + (n * n) mod 97.
Proof.
  intros Hn. unfold cpu_heavy. rewrite range_succ by exact Hn.
  now rewrite fold_left_app.
Qed.

Lemma square_mod_period n : ((n + 97) * (n + 97)) mod 97 = (n * n) mod 97.
Proof.
  replace ((n + 97) * (n + 97)) with (n * n + (2 * n + 97) * 97) by ring.
  apply Z.mod_add. lia.
Qed.

Lemma cpu_heavy_shift n : 0 <= n -> cpu_heavy (n + 97) = cpu_heavy n + 4656.
Proof.
  revert n. apply natlike_ind.
  - vm_compute. reflexivity.
  - intros n Hn IH. unfold Z.succ.
    replace (n + 1 + 97) with (n + 97 + 1) by lia.
    rewrite !cpu_heavy_succ by lia. rewrite IH, square_mod_period. lia.
Qed.

Lemma cpu_heavy_periods q : 0 <= q -> forall r, 0 <= r ->
  cpu_heavy (97 * q + r) = 4656 * q + cpu_heavy r.
Proof.
  revert q. apply (natlike_ind (fun q => forall r, 0 <= r ->
    cpu_heavy (97 * q + r) = 4656 * q + cpu_heavy r)).
  - intros r Hr. now rewrite Z.mul_0_r, !Z.add_0_l.
  - intros q Hq IH r Hr. unfold Z.succ.
    replace (97 * (q + 1) + r) with (97 * q + r + 97) by lia.
    rewrite cpu_heavy_shift by lia. rewrite IH by exact Hr. lia.
Qed.

Lemma cpu_heavy_range n : 0 <= n -> 0 <= cpu_heavy n <= 96 * n.
Proof.
  revert n. apply natlike_ind.
  - vm_compute. split; discriminate.
  - intros x Hx IH. unfold Z.succ. rewrite cpu_heavy_succ by exact Hx.
    pose proof (Z.mod_pos_bound (x * x) 97 ltac:(lia)). lia.
Qed.

(** X1. The result lies between [0] and [96 * n]; for [n <= 0] the loop
    body never runs and the result is [0]. *)
Theorem cpu_heavy_bounds (n : Z) :
  0 <= cpu_heavy n <= 96 * Z.max 0 n /\ (n <= 0 -> cpu_heavy n = 0).
Proof.
  split; [|apply cpu_heavy_nonpos].
  destruct (Z_le_gt_dec n 0) as [Hn|Hn].
  - rewrite cpu_heavy_nonpos by exact Hn. lia.
  - rewrite Z.max_r by lia. apply cpu_heavy_range. lia.
Qed.

(** X2. The summand has period 97 and a full period adds up to 4656, so
    the loop has a closed form: [4656] for each complete block of 97
    integers, plus the loop over the remaining [n mod 97] integers. *)
Theorem cpu_heavy_closed_form (n : Z) :
  0 <= n ->
  cpu_heavy n = 4656 * (n / 97) + cpu_heavy (n mod 97).
Proof.
  intros Hn.
  pose proof (Z.mod_pos_bound n 97 ltac:(lia)) as Hr.
  pose proof (Z.div_pos n 97 Hn ltac:(lia)) as Hq.
  rewrite (Z.div_mod n 97) at 1 by lia.
  apply cpu_heavy_periods; lia.
Qed.

Lemma cpu_heavy_closed_form_witness :
  cpu_heavy cpu_heavy_default_n
  = 4656 * (cpu_heavy_default_n / 97) + cpu_heavy (cpu_heavy_default_n mod 97).
Proof.
  apply (cpu_heavy_closed_form cpu_heavy_default_n). vm_compute. discriminate.
Defined.

(** X3. The result never decreases when [n] grows. *)
Theorem cpu_heavy_monotone (n m : Z) :
  n <= m -> cpu_heavy n <= cpu_heavy m.
Proof.
  intros Hnm. destruct (Z_le_gt_dec n 0) as [Hn|Hn].
  - rewrite (cpu_heavy_nonpos n Hn).
    destruct (Z_le_gt_dec m 0) as [Hm|Hm].
    + rewrite (cpu_heavy_nonpos m Hm). lia.
    + apply cpu_heavy_range. lia.
  - replace m with (n + (m - n)) by lia.
    assert (Hk : 0 <= m - n) by lia. revert Hk. generalize (m - n).
    apply natlike_ind.
    + rewrite Z.add_0_r. lia.
    + intros k Hk IH. unfold Z.succ. rewrite Z.add_assoc.
      rewrite cpu_heavy_succ by lia.
      pose proof (Z.mod_pos_bound ((n + k) * (n + k)) 97 ltac:(lia)). lia.
Qed.

Lemma cpu_heavy_monotone_witness : cpu_heavy 5 <= cpu_heavy 200.
Proof. apply (cpu_heavy_monotone 5 200). vm_compute. discriminate. Defined.

Lemma sum_of_squares_succ n :
  n * (n + 1) * (2 * (n + 1) - 1) / 6 = (n - 1) * n * (2 * n - 1) / 6 + n * n.
Proof.
  replace (n * (n + 1) * (2 * (n + 1) - 1))
    with ((n - 1) * n * (2 * n - 1) + n * n * 6) by ring.
  apply Z.div_add. lia.
Qed.

(** X4. The loop adds the squares after reducing each of them: the result
    is congruent modulo 97 to the sum of the squares of [0 .. n - 1], which
    is [(n - 1) * n * (2 * n - 1) / 6], but is not itself reduced. *)
Theorem cpu_heavy_congruent (n : Z) :
  0 <= n ->
  cpu_heavy n mod 97 = ((n - 1) * n * (2 * n - 1) / 6) mod 97.
Proof.
  revert n. apply natlike_ind.
  - reflexivity.
  - intros n Hn IH. unfold Z.succ. rewrite cpu_heavy_succ by exact Hn.
    replace (n + 1 - 1) with n by lia. rewrite sum_of_squares_succ.
    rewrite Z.add_mod_idemp_r by lia.
    rewrite (Z.add_mod (cpu_heavy n)), IH, <- Z.add_mod by lia.
    reflexivity.
Qed.

Lemma cpu_heavy_congruent_witness :
  cpu_heavy 20 mod 97 = ((20 - 1) * 20 * (2 * 20 - 1) / 6) mod 97.
Proof. apply (cpu_heavy_congruent 20). vm_compute. discriminate. Defined.

Lemma cpu_heavy_bounds_witness :
  0 <= cpu_heavy (-3) <= 96 * Z.max 0 (-3) /\ (-3 <= 0 -> cpu_heavy (-3) = 0).
Proof. exact (cpu_heavy_bounds (-3)). Defined.

(** With the default argument the loop returns [480000219]. *)
Example cpu_heavy_default_value : cpu_heavy cpu_heavy_default_n = 480000219.
Proof.
  change cpu_heavy_default_n with (97 * 103092 + 76).
  rewrite cpu_heavy_periods by lia. vm_compute. reflexivity.
Qed.

(* ===================================================================== *)
(** * More on the reducer: bounds, locality, handles *)
(* ===================================================================== *)

Lemma chunk_sum_fits np_dtype w n d inner s dt buffer start end_ :
  np_dtype s = Some dt ->
  shm.segments w !! n = Some buffer ->
  fits (d :: inner) dt buffer ->
  fst (chunk_sum np_dtype n (d :: inner) s start end_ w)
  = Ok (float (np.sum (window d inner dt buffer start end_))).
Proof.
  intros Hd Hn Hfit.
  rewrite (chunk_sum_attached np_dtype w n _ _ _ _ start end_ Hd Hn).
  cbn [fst]. apply (reduce_fits _ _ _ _ _ _ Hfit).
Qed.

Lemma window_adjusted d inner dt buffer s1 e1 s2 e2 :
  np.adjust d s1 = np.adjust d s2 ->
  np.adjust d e1 = np.adjust d e2 ->
  window d inner dt buffer s1 e1 = window d inner dt buffer s2 e2.
Proof. unfold window. now intros -> ->. Qed.

Lemma fits_extent d inner dt buffer : fits (d :: inner) dt buffer -> 0 < d.
Proof. intros (_ & Hpos & _). now inversion Hpos. Qed.

(** X5. The range [0 .. shape[0]) is the whole array: the call returns
    [float(np.sum(arr))], and so does every call whose bounds reach or pass
    both ends. *)
Theorem chunk_sum_whole_array
    (np_dtype : string -> option np.dtype) (w : shm.world) (n : string)
    (d : Z) (inner : list Z) (s : string) (dt : np.dtype)
    (buffer : list byte) (start end_ : Z) :
  np_dtype s = Some dt ->
  shm.segments w !! n = Some buffer ->
  fits (d :: inner) dt buffer ->
  start = 0 \/ start <= - d ->
  d <= end_ ->
  fst (chunk_sum np_dtype n (d :: inner) s start end_ w)
  = Ok (float (np.sum (np.Array (d :: inner) dt buffer 0))).
Proof.
  intros Hd Hn Hfit Hs He. pose proof (fits_extent _ _ _ _ Hfit) as Hpos.
  rewrite (chunk_sum_fits _ _ _ _ _ _ _ _ start end_ Hd Hn Hfit).
  do 3 f_equal. unfold window.
  assert (np.adjust d start = 0) as ->.
  { unfold np.adjust. destruct (Z.ltb_spec start 0); lia. }
  assert (np.adjust d end_ = d) as ->.
  { unfold np.adjust. destruct (Z.ltb_spec end_ 0); lia. }
  replace (Z.max 0 (d - 0)) with d by lia.
  now replace (0 + 0 * np.prod inner * np.itemsize dt) with 0 by lia.
Qed.

Lemma chunk_sum_whole_array_witness :
  fst (chunk_sum dtype_names "psm_demo" [4] "float64" (-9) 7 world_1234)
  = Ok (float (np.sum (np.Array [4] np.float64 bytes_1234 0))).
Proof.
  apply (chunk_sum_whole_array dtype_names world_1234 "psm_demo" 4 []
           "float64" np.float64 bytes_1234 (-9) 7);
    [reflexivity | reflexivity | exact fits_1234 | right; lia | lia].
Defined.

(** X6. A negative bound counts from the end of the first axis: [-j]
    stands for [shape[0] - j], for [start] and for [end] alike. *)
Theorem chunk_sum_negative_bounds
    (np_dtype : string -> option np.dtype) (w : shm.world) (n : string)
    (d : Z) (inner : list Z) (s : string) (dt : np.dtype)
    (buffer : list byte) (start end_ : Z) :
  np_dtype s = Some dt ->
  shm.segments w !! n = Some buffer ->
  fits (d :: inner) dt buffer ->
  (- d <= start < 0 ->
   fst (chunk_sum np_dtype n (d :: inner) s start end_ w)
   = fst (chunk_sum np_dtype n (d :: inner) s (start + d) end_ w)) /\
  (- d <= end_ < 0 ->
   fst (chunk_sum np_dtype n (d :: inner) s start end_ w)
   = fst (chunk_sum np_dtype n (d :: inner) s start (end_ + d) w)).
Proof.
  intros Hd Hn Hfit. pose proof (fits_extent _ _ _ _ Hfit) as Hpos.
  split; intros Hneg;
    rewrite !(chunk_sum_fits _ _ _ _ _ _ _ _ _ _ Hd Hn Hfit);
    do 3 f_equal; apply window_adjusted; try reflexivity;
    unfold np.adjust.
  - destruct (Z.ltb_spec start 0), (Z.ltb_spec (start + d) 0); lia.
  - destruct (Z.ltb_spec end_ 0), (Z.ltb_spec (end_ + d) 0); lia.
Qed.

Lemma chunk_sum_negative_bounds_witness :
  (- 4 <= -3 < 0 ->
   fst (chunk_sum dtype_names "psm_demo" [4] "float64" (-3) (-1) world_1234)
   = fst (chunk_sum dtype_names "psm_demo" [4] "float64" (-3 + 4) (-1) world_1234)) /\
  (- 4 <= -1 < 0 ->
   fst (chunk_sum dtype_names "psm_demo" [4] "float64" (-3) (-1) world_1234)
   = fst (chunk_sum dtype_names "psm_demo" [4] "float64" (-3) (-1 + 4) world_1234)).
Proof.
  apply (chunk_sum_negative_bounds dtype_names world_1234 "psm_demo" 4 []
           "float64" np.float64 bytes_1234 (-3) (-1));
    [reflexivity | reflexivity | exact fits_1234].
Defined.

(** X7. Bounds beyond the array are clamped: an [end] at or past
    [shape[0]] acts as [shape[0]], a [start] at or below [- shape[0]] acts
    as [0], and a [start] at or past [shape[0]] selects nothing. *)
Theorem chunk_sum_clamped_bounds
    (np_dtype : string -> option np.dtype) (w : shm.world) (n : string)
    (d : Z) (inner : list Z) (s : string) (dt : np.dtype)
    (buffer : list byte) (start end_ : Z) :
  np_dtype s = Some dt ->
  shm.segments w !! n = Some buffer ->
  fits (d :: inner) dt buffer ->
  (d <= end_ ->
   fst (chunk_sum np_dtype n (d :: inner) s start end_ w)
   = fst (chunk_sum np_dtype n (d :: inner) s start d w)) /\
  (start <= - d ->
   fst (chunk_sum np_dtype n (d :: inner) s start end_ w)
   = fst (chunk_sum np_dtype n (d :: inner) s 0 end_ w)) /\
  (d <= start ->
   fst (chunk_sum np_dtype n (d :: inner) s start end_ w) = Ok pos_zero).
Proof.
  intros Hd Hn Hfit. pose proof (fits_extent _ _ _ _ Hfit) as Hpos.
  repeat split; intros Hb;
    rewrite !(chunk_sum_fits _ _ _ _ _ _ _ _ _ _ Hd Hn Hfit).
  - do 3 f_equal. apply window_adjusted; [reflexivity|]. unfold np.adjust.
    destruct (Z.ltb_spec end_ 0), (Z.ltb_spec d 0); lia.
  - do 3 f_equal. apply window_adjusted; [|reflexivity]. unfold np.adjust.
    destruct (Z.ltb_spec start 0), (Z.ltb_spec 0 0); lia.
  - f_equal. apply empty_window.
    pose proof (adjust_bounds d end_ ltac:(lia)).
    unfold np.adjust at 2. destruct (Z.ltb_spec start 0); lia.
Qed.

Lemma chunk_sum_clamped_bounds_witness :
  (4 <= 9 ->
   fst (chunk_sum dtype_names "psm_demo" [4] "float64" 6 9 world_1234)
   = fst (chunk_sum dtype_names "psm_demo" [4] "float64" 6 4 world_1234)) /\
  (6 <= - 4 ->
   fst (chunk_sum dtype_names "psm_demo" [4] "float64" 6 9 world_1234)
   = fst (chunk_sum dtype_names "psm_demo" [4] "float64" 0 9 world_1234)) /\
  (4 <= 6 ->
   fst (chunk_sum dtype_names "psm_demo" [4] "float64" 6 9 world_1234)
   = Ok pos_zero).
Proof.
  apply (chunk_sum_clamped_bounds dtype_names world_1234 "psm_demo" 4 []
           "float64" np.float64 bytes_1234 6 9);
    [reflexivity | reflexivity | exact fits_1234].
Defined.

Lemma slice_read (b : list byte) (O L w i : nat) :
  (i * w + w <= L)%nat ->
  take w (drop (O + i * w) b) = take w (drop (i * w) (take L (drop O b))).
Proof.
  intros Hle.
  replace L with (i * w + (L - i * w))%nat at 1 by lia.
  rewrite <- take_drop_commute, drop_drop, take_take.
  f_equal. lia.
Qed.

Lemma sum_ext a b :
  np.nd_dtype a = np.nd_dtype b -> np.items a = np.items b ->
  np.sum a = np.sum b.
Proof. unfold np.sum. now intros -> ->. Qed.

(** The items of a view are read from the bytes of the view alone. *)
Lemma items_local d inner dt b1 b2 start end_ :
  Forall (fun x => 0 < x) inner ->
  0 <= start <= end_ -> end_ <= d ->
  take (Z.to_nat ((end_ - start) * np.prod inner * np.itemsize dt))
       (drop (Z.to_nat (start * np.prod inner * np.itemsize dt)) b1)
  = take (Z.to_nat ((end_ - start) * np.prod inner * np.itemsize dt))
         (drop (Z.to_nat (start * np.prod inner * np.itemsize dt)) b2) ->
  np.items (window d inner dt b1 start end_)
  = np.items (window d inner dt b2 start end_).
Proof.
  intros Hinner Hs He Hbytes. pose proof (prod_pos inner Hinner) as HP.
  pose proof (itemsize_pos dt) as Hw.
  unfold np.items, window, np.size. rewrite !adjust_in_range by lia.
  cbn [np.nd_shape np.prod fold_right]. fold (np.prod inner).
  rewrite Z.max_r by lia.
  apply map_ext_in. intros i Hi. apply in_seq in Hi.
  unfold np.item. cbn [np.nd_dtype np.nd_offset np.nd_base]. f_equal.
  rewrite Z.add_0_l.
  set (O := Z.to_nat (start * np.prod inner * np.itemsize dt)) in *.
  set (L := Z.to_nat ((end_ - start) * np.prod inner * np.itemsize dt)) in *.
  assert (HL : (i * Z.to_nat (np.itemsize dt) + Z.to_nat (np.itemsize dt) <= L)%nat).
  { subst L. rewrite Z2Nat.inj_mul by nia. nia. }
  rewrite !(slice_read _ O L) by exact HL. now rewrite Hbytes.
Qed.

(** X8. The result depends on the bytes of the selected range only: two
    segments that agree on the bytes of rows [start .. end) give the same
    result, whatever they hold elsewhere and whatever their names and the
    rest of the world. *)
Theorem chunk_sum_local
    (np_dtype : string -> option np.dtype) (w1 w2 : shm.world)
    (n1 n2 : string) (d : Z) (inner : list Z) (s : string) (dt : np.dtype)
    (b1 b2 : list byte) (start end_ : Z) :
  np_dtype s = Some dt ->
  shm.segments w1 !! n1 = Some b1 ->
  shm.segments w2 !! n2 = Some b2 ->
  fits (d :: inner) dt b1 ->
  fits (d :: inner) dt b2 ->
  0 <= start <= end_ -> end_ <= d ->
  take (Z.to_nat ((end_ - start) * np.prod inner * np.itemsize dt))
       (drop (Z.to_nat (start * np.prod inner * np.itemsize dt)) b1)
  = take (Z.to_nat ((end_ - start) * np.prod inner * np.itemsize dt))
         (drop (Z.to_nat (start * np.prod inner * np.itemsize dt)) b2) ->
  fst (chunk_sum np_dtype n1 (d :: inner) s start end_ w1)
  = fst (chunk_sum np_dtype n2 (d :: inner) s start end_ w2).
Proof.
  intros Hd Hn1 Hn2 Hf1 Hf2 Hs He Hbytes.
  rewrite (chunk_sum_fits _ _ _ _ _ _ _ _ start end_ Hd Hn1 Hf1).
  rewrite (chunk_sum_fits _ _ _ _ _ _ _ _ start end_ Hd Hn2 Hf2).
  do 2 f_equal. apply sum_ext; [reflexivity|].
  apply items_local; try assumption.
  destruct Hf1 as (_ & Hpos & _). now inversion Hpos.
Qed.

Lemma fits_x23x : fits [4] np.float64 bytes_x23x.
Proof.
  split; [discriminate|]. split; [|vm_compute; discriminate].
  constructor; [reflexivity|constructor].
Qed.

Lemma chunk_sum_local_witness :
  fst (chunk_sum dtype_names "psm_demo" [4] "float64" 1 3 world_1234)
  = fst (chunk_sum dtype_names "psm_other" [4] "float64" 1 3 world_x23x).
Proof.
  apply (chunk_sum_local dtype_names world_1234 world_x23x "psm_demo"
           "psm_other" 4 [] "float64" np.float64 bytes_1234 bytes_x23x 1 3);
    [reflexivity | reflexivity | reflexivity | exact fits_1234
    | exact fits_x23x | lia | lia | vm_compute; reflexivity].
Defined.

Lemma to_signed_range w z :
  0 < w -> - 2 ^ (w - 1) <= np.to_signed w z < 2 ^ (w - 1).
Proof.
  intros Hw. unfold np.to_signed.
  assert (Hp : 2 ^ w = 2 * 2 ^ (w - 1)).
  { replace w with (w - 1 + 1) at 1 by lia. rewrite Z.pow_add_r by lia. lia. }
  assert (Hq : 0 < 2 ^ (w - 1)) by (apply Z.pow_pos_nonneg; lia).
  pose proof (Z.mod_pos_bound z (2 ^ w) ltac:(lia)).
  destruct (Z.ltb_spec (z mod 2 ^ w) (2 ^ (w - 1))); lia.
Qed.

Lemma Zsum_between lo hi l :
  Forall (fun z => lo <= z <= hi) l ->
  Z.of_nat (length l) * lo <= Zsum l <= Z.of_nat (length l) * hi.
Proof.
  induction 1 as [|z l Hz _ IH].
  - rewrite Zsum_nil. cbn. lia.
  - rewrite Zsum_cons. cbn [length]. lia.
Qed.

(** X9. Sums of int32 items do not wrap: the items are added as 64-bit
    integers, so for up to [2 ^ 32] selected items the result is the
    mathematical sum of the items, converted to binary64. *)
Theorem chunk_sum_int32_no_wrap
    (np_dtype : string -> option np.dtype) (w : shm.world) (n : string)
    (d : Z) (inner : list Z) (s : string) (buffer : list byte)
    (start end_ : Z) :
  np_dtype s = Some np.int32 ->
  shm.segments w !! n = Some buffer ->
  fits (d :: inner) np.int32 buffer ->
  0 <= start <= end_ -> end_ <= d ->
  (end_ - start) * np.prod inner <= 2 ^ 32 ->
  fst (chunk_sum np_dtype n (d :: inner) s start end_ w)
  = Ok (IEEE.of_Z IEEE.binary64
          (Zsum (map (np.to_signed 32)
                     (np.items (window d inner np.int32 buffer start end_))))).
Proof.
  intros Hd Hn Hfit Hs He Hcount.
  rewrite (chunk_sum_fits _ _ _ _ _ _ _ _ start end_ Hd Hn Hfit).
  do 2 f_equal. unfold np.sum. cbn [window np.nd_dtype float].
  fold (window d inner np.int32 buffer start end_).
  rewrite add_reduce_int_closed.
  set (l := map (np.to_signed 32) _).
  assert (Hlen : Z.of_nat (length l) <= 2 ^ 32).
  { subst l. rewrite length_map. unfold np.items. rewrite length_map, length_seq.
    unfold np.size, window. cbn [np.nd_shape np.prod fold_right].
    fold (np.prod inner). rewrite !adjust_in_range by lia.
    assert (0 < np.prod inner).
    { apply prod_pos. destruct Hfit as (_ & Hpos & _). now inversion Hpos. }
    rewrite Z.max_r by lia. rewrite Z2Nat.id by nia. exact Hcount. }
  assert (Hall : Forall (fun z => - 2 ^ 31 <= z <= 2 ^ 31 - 1) l).
  { subst l. apply Forall_forall. intros z Hz. apply list_elem_of_In in Hz.
    apply in_map_iff in Hz as (r & <- & _).
    pose proof (to_signed_range 32 r ltac:(lia)) as Hr.
    change (32 - 1) with 31 in Hr. lia. }
  pose proof (Zsum_between _ _ _ Hall) as Hsum.
  pose proof (Nat2Z.is_nonneg (length l)).
  f_equal. apply to_signed_small; [lia|].
  change (64 - 1) with 63.
  change (2 ^ 63) with (2 ^ 32 * 2 ^ 31).
  change (2 ^ 32) with 4294967296 in *. change (2 ^ 31) with 2147483648 in *.
  nia.
Qed.

Lemma fits_i32 : fits [4] np.int32 bytes_i32.
Proof.
  split; [discriminate|]. split; [|vm_compute; discriminate].
  constructor; [reflexivity|constructor].
Qed.

Lemma chunk_sum_int32_no_wrap_witness :
  fst (chunk_sum dtype_names "psm_i32" [4] "int32" 0 4 world_i32)
  = Ok (IEEE.of_Z IEEE.binary64
          (Zsum (map (np.to_signed 32)
                     (np.items (window 4 [] np.int32 bytes_i32 0 4))))).
Proof.
  apply (chunk_sum_int32_no_wrap dtype_names world_i32 "psm_i32" 4 []
           "int32" bytes_i32 0 4);
    [reflexivity | reflexivity | exact fits_i32 | lia | lia
    | vm_compute; discriminate].
Defined.

(** The four int32 items add up to [2147483647]. *)
Example sum_i32 :
  fst (chunk_sum dtype_names "psm_i32" [4] "int32" 0 4 world_i32)
  = Ok (IEEE.of_Z IEEE.binary64 2147483647).
Proof. vm_compute. reflexivity. Qed.

(** X10. An empty shape describes a 0-dimensional array, which cannot be
    sliced: the call attaches, raises [IndexError] from [arr[start:end]],
    and the handle is closed on the way out. *)
Theorem chunk_sum_empty_shape
    (np_dtype : string -> option np.dtype) (w : shm.world) (n : string)
    (s : string) (dt : np.dtype) (buffer : list byte) (start end_ : Z) :
  np_dtype s = Some dt ->
  shm.segments w !! n = Some buffer ->
  np.itemsize dt <= Z.of_nat (length buffer) ->
  let r := chunk_sum np_dtype n [] s start end_ w in
  fst r = Err IndexError_too_many_indices /\
  shm.handles (snd r) = shm.handles w /\
  exists d, shm.log (snd r) = shm.log w ++ [shm.Attach n d; shm.Close d].
Proof.
  intros Hd Hn Hlen r. subst r.
  rewrite (chunk_sum_attached np_dtype w n _ _ _ _ start end_ Hd Hn).
  cbn [fst snd shm.handles shm.log].
  split; [|split; [reflexivity|eauto]].
  unfold reduce, np.ndarray. cbn [np.prod fold_right existsb].
  rewrite Z.mul_1_r.
  destruct (Z.ltb_spec (Z.of_nat (length buffer)) (np.itemsize dt)); [lia|].
  reflexivity.
Qed.

Lemma chunk_sum_empty_shape_witness :
  let r := chunk_sum dtype_names "psm_demo" [] "float64" 0 1 world_1234 in
  fst r = Err IndexError_too_many_indices /\
  shm.handles (snd r) = shm.handles world_1234 /\
  exists d, shm.log (snd r)
            = shm.log world_1234 ++ [shm.Attach "psm_demo" d; shm.Close d].
Proof.
  apply (chunk_sum_empty_shape dtype_names world_1234 "psm_demo" "float64"
           np.float64 bytes_1234 0 1);
    [reflexivity | reflexivity | vm_compute; discriminate].
Defined.

(** X11. Whatever the arguments and whatever the outcome, a call leaves
    the handles of the process as it found them: it either attaches nothing
    or attaches once and closes the descriptor it took. *)
Theorem chunk_sum_leaves_no_handle
    (np_dtype : string -> option np.dtype) (w : shm.world) (n : string)
    (shape : list Z) (s : string) (start end_ : Z) :
  let w' := snd (chunk_sum np_dtype n shape s start end_ w) in
  shm.handles w' = shm.handles w /\
  (shm.log w' = shm.log w \/
   exists d, shm.handles w !! d = None /\
             shm.log w' = shm.log w ++ [shm.Attach n d; shm.Close d]).
Proof.
  destruct (np_dtype s) as [dt|] eqn:Hd.
  - destruct (shm.segments w !! n) as [buffer|] eqn:Hn.
    + cbn zeta.
      rewrite (chunk_sum_attached np_dtype w n _ _ _ _ start end_ Hd Hn).
      cbn [snd shm.handles shm.log]. split; [reflexivity|]. right.
      exists (fresh (dom (shm.handles w))).
      split; [apply fresh_handle_free|reflexivity].
    + cbn zeta.
      rewrite (chunk_sum_no_segment np_dtype w n _ _ _ start end_ Hd Hn).
      cbn [snd]. auto.
  - cbn zeta.
    rewrite (chunk_sum_unknown_dtype np_dtype w n shape _ start end_ Hd).
    cbn [snd]. auto.
Qed.

(** X12. On integral data the result is exact: when the selected items
    are integers whose absolute values add up to at most [2 ^ 53]
    ([2 ^ 24] for float32), the call returns their mathematical sum, in
    whatever order NumPy adds them. *)
Theorem chunk_sum_integral_exact
    (np_dtype : string -> option np.dtype) (w : shm.world) (n : string)
    (d : Z) (inner : list Z) (s : string) (dt : np.dtype)
    (buffer : list byte) (start end_ : Z) (zs : list Z) :
  np_dtype s = Some dt ->
  shm.segments w !! n = Some buffer ->
  fits (d :: inner) dt buffer ->
  Forall2 (integral dt) (np.items (window d inner dt buffer start end_)) zs ->
  sum_abs zs <= 2 ^ IEEE.prec (sum_format dt) ->
  fst (chunk_sum np_dtype n (d :: inner) s start end_ w)
  = Ok (IEEE.of_Z IEEE.binary64 (Zsum zs)).
Proof.
  intros Hd Hn Hfit Hint Hb.
  rewrite (chunk_sum_fits _ _ _ _ _ _ _ _ start end_ Hd Hn Hfit).
  f_equal. now apply sum_integral.
Qed.

Lemma chunk_sum_integral_exact_witness :
  fst (chunk_sum dtype_names "psm_demo" [4] "float64" 1 3 world_1234)
  = Ok (IEEE.of_Z IEEE.binary64 (Zsum [2; 3])).
Proof.
  apply (chunk_sum_integral_exact dtype_names world_1234 "psm_demo" 4 []
           "float64" np.float64 bytes_1234 1 3 [2; 3]);
    [reflexivity | reflexivity | exact fits_1234 | | vm_compute; discriminate].
  set (l := np.items _). vm_compute in l. subst l.
  repeat (constructor; [vm_compute; reflexivity|]). constructor.
Defined.
